(** * A shallow embedding of [spell.py] (class [NonEnglishSpellCorrector])

    The definitions come in the order in which the source needs them: the
    phonetic normaliser, [difflib.SequenceMatcher] of the Python standard
    library (whose [ratio] the score calls), the Jaro similarity, the
    composite score, the reference dictionary and the best-match search.
    The files the source reads and writes come last among the definitions.
    The properties follow: the lemmas, the claims of the specification, and
    further properties of the code.

    Modelling conventions.
    - A token is a [string]; a character is a code point below 256, on which
      [str.lower] acts character by character.
    - The scores are given twice.  [calculate_similarity_score] and the
      functions it calls compute on exact rationals ([Q]): [0.3] is
      [3 # 10], [/] is exact division, rounding is left out, and equality
      of scores is [Qeq]; the statements about the range and the values 0
      and 1 of the scores are about these.  The same functions with the
      suffix [_binary64] compute as Python does, on floats of the IEEE 754
      binary64 format, every operation rounded.
    - The search compares scores and thresholds as numbers.  It takes the
      scorer as a parameter ([find_best_match_with]): what is proved of the
      search for every scorer holds for the scores the program computes.
    - A Python exception is a value [Raise e] of the type [result]. *)

From Stdlib Require Import QArith Lqa Lia.
From Stdlib Require SpecFloat.
From stdpp Require Import gmap strings list.
From Stdlib Require Import Ascii String.

Local Open Scope string_scope.
Local Open Scope list_scope.

(** ** Results of computations that may raise *)

Inductive exn : Type :=
  | IndexError         (* a list indexed out of its range *)
  | ZeroDivisionError  (* [x / 0] *)
  | OutOfFuel.         (* not a Python exception: the bound the model puts on
                          a [while] loop ran out (shown never to happen) *)

Inductive result (A : Type) : Type :=
  | Ok (a : A)
  | Raise (e : exn).
Arguments Ok {A} a.
Arguments Raise {A} e.

Definition bind {A B : Type} (r : result A) (k : A -> result B) : result B :=
  match r with
  | Ok a => k a
  | Raise e => Raise e
  end.

Notation "'let*' x ':=' r 'in' k" := (bind r (fun x => k))
  (at level 10, x name, r at level 100, k at level 200).

(** Python's true division on floats. *)
Definition py_div (x y : Q) : result Q :=
  if Qeq_bool y 0 then Raise ZeroDivisionError else Ok (x / y)%Q.

Definition Qlt_bool (x y : Q) : bool := negb (Qle_bool y x).

(** The number a computation returns, in lowest terms; [None] when it
    raises. *)
Definition value (r : result Q) : option Q :=
  match r with
  | Ok q => Some (Qred q)
  | Raise _ => None
  end.

(** ** Lists and loops as Python has them *)

(** [l[j]]: a negative index counts from the end, an index out of range
    raises. *)
Definition index {A : Type} (l : list A) (j : Z) : result A :=
  let j' := if (j <? 0)%Z then (Z.of_nat (List.length l) + j)%Z else j in
  if (j' <? 0)%Z then Raise IndexError
  else match l !! Z.to_nat j' with
       | Some x => Ok x
       | None => Raise IndexError
       end.

(** [l[j] = v]. *)
Definition assign {A : Type} (l : list A) (j : Z) (v : A) : result (list A) :=
  let j' := if (j <? 0)%Z then (Z.of_nat (List.length l) + j)%Z else j in
  if (j' <? 0)%Z || (Z.of_nat (List.length l) <=? j')%Z then Raise IndexError
  else Ok (<[Z.to_nat j' := v]> l).

(** [range(lo, hi)]. *)
Definition py_range (lo hi : Z) : list Z :=
  map (fun k => (lo + Z.of_nat k)%Z) (seq 0 (Z.to_nat (hi - lo))).

(** [for x in xs: s = body(s, x)], stopping at the first exception. *)
Fixpoint for_each {S X : Type} (xs : list X) (body : S -> X -> result S)
    (s : S) : result S :=
  match xs with
  | [] => Ok s
  | x :: xs' => let* s' := body s x in for_each xs' body s'
  end.

(** ** Strings *)

Definition chars (s : string) : list ascii := list_ascii_of_string s.
Definition str (l : list ascii) : string := string_of_list_ascii l.

(** [str.lower] on one code point below 256: the ASCII capitals and the
    Latin-1 capitals U+00C0..U+00DE (U+00D7, the multiplication sign, is not a
    letter) move 32 places up. *)
Definition lower_char (c : ascii) : ascii :=
  let n := nat_of_ascii c in
  if (Nat.leb 65 n && Nat.leb n 90)
     || (Nat.leb 192 n && Nat.leb n 222 && negb (Nat.eqb n 215))
  then ascii_of_nat (n + 32)
  else c.

Fixpoint lower (s : string) : string :=
  match s with
  | EmptyString => EmptyString
  | String c s' => String (lower_char c) (lower s')
  end.

Fixpoint starts_with (p s : list ascii) : bool :=
  match p, s with
  | [], _ => true
  | x :: p', y :: s' => Ascii.eqb x y && starts_with p' s'
  | _ :: _, [] => false
  end.

(** [replace_from old new skip s]: the scan of [str.replace] standing at the
    head of [s], with [skip] characters of the occurrence found last still to
    be passed over.  Occurrences are taken from the left and do not
    overlap. *)
Fixpoint replace_from (old new : list ascii) (skip : nat) (s : list ascii)
  : list ascii :=
  match s with
  | [] => []
  | c :: s' =>
      match skip with
      | S k => replace_from old new k s'
      | O =>
          if starts_with old s
          then new ++ replace_from old new (List.length old - 1) s'
          else c :: replace_from old new 0 s'
      end
  end.

(** [s.replace(old, new)]; an empty [old] matches before every character and
    at the end. *)
Definition replace (old new s : string) : string :=
  match chars old with
  | [] => str (chars new ++ flat_map (fun c => c :: chars new) (chars s))
  | o => str (replace_from o (chars new) 0 (chars s))
  end.

(** [re.sub] for the two patterns of the source, both of the shape
    [([class])\1{n,}] with the replacement [\1] written [keep] times: a match
    starts at a character of the class followed by at least [n] copies of
    itself, and being greedy it takes every copy that follows.  [skipping] is
    the character of the match being passed over, if any. *)
Fixpoint re_sub_run (cls : ascii -> bool) (n keep : nat)
    (skipping : option ascii) (s : list ascii) : list ascii :=
  match s with
  | [] => []
  | c :: s' =>
      if match skipping with Some d => Ascii.eqb c d | None => false end
      then re_sub_run cls n keep skipping s'
      else if cls c && starts_with (repeat c n) s'
      then repeat c keep ++ re_sub_run cls n keep (Some c) s'
      else c :: re_sub_run cls n keep None s'
  end.

Definition char_in (set : string) (c : ascii) : bool :=
  existsb (Ascii.eqb c) (chars set).

Definition vowels : string := "aeiou".
Definition consonants : string := "bcdfghjklmnpqrstvwxyz".

(** ** [_create_phonetic_map]

    The dictionary as the list of its items, in insertion order (the order in
    which [dict.items] yields them). *)
Definition double (c : ascii) : string := String c (String c EmptyString).

Definition _create_phonetic_map : list (string * string) :=
  [ ("aa", "a"); ("aaa", "a"); ("aaaa", "a");
    ("ee", "e"); ("eee", "e"); ("eeee", "e");
    ("ii", "i"); ("iii", "i"); ("iiii", "i");
    ("oo", "o"); ("ooo", "o"); ("oooo", "o");
    ("uu", "u"); ("uuu", "u"); ("uuuu", "u");
    ("ph", "f"); ("gh", "g"); ("kh", "k"); ("th", "t");
    ("ch", "c"); ("sh", "s"); ("zh", "z") ]
  ++ map (fun c => (double c, String c EmptyString)) (chars consonants).

(** ** [normalize_phonetic] *)
Definition normalize_phonetic (word : string) : string :=
  let w := lower word in
  let w := fold_left (fun w '(variant, standard) => replace variant standard w)
                     _create_phonetic_map w in
  let w := str (re_sub_run (char_in vowels) 2 2 None (chars w)) in
  let w := str (re_sub_run (char_in consonants) 1 1 None (chars w)) in
  w.

(** ** [difflib.SequenceMatcher(None, a, b).ratio()]

    The matcher of the Python standard library, as [difflib.py] has it, for
    [isjunk = None] and [autojunk = True] (the defaults the source uses). *)

(** [__chain_b]: for every element of [b] the increasing list of the places
    where it stands; when [b] has 200 elements or more, the elements standing
    at more than [n // 100 + 1] places (the popular ones) are taken out. *)
Definition chain_b (b : list ascii) : gmap ascii (list Z) :=
  let b2j :=
    fold_left (fun (m : gmap ascii (list Z)) '(i, elt) =>
                 <[elt := default [] (m !! elt) ++ [i]]> m)
              (zip (py_range 0 (Z.of_nat (List.length b))) b) ∅ in
  let n := Z.of_nat (List.length b) in
  if (200 <=? n)%Z
  then let ntest := (n / 100 + 1)%Z in
       filter (fun p => ¬ (ntest < Z.of_nat (List.length p.2))%Z) b2j
  else b2j.

(** The loop [for j in b2j.get(a[i], nothing)] of [find_longest_match] in
    turn [i]; [best] is [(besti, bestj, bestsize)]. *)
Fixpoint flm_row (blo bhi i : Z) (j2len : gmap Z Z) (js : list Z)
    (newj2len : gmap Z Z) (best : Z * Z * Z) : gmap Z Z * (Z * Z * Z) :=
  match js with
  | [] => (newj2len, best)
  | j :: js' =>
      if (j <? blo)%Z then flm_row blo bhi i j2len js' newj2len best
      else if (bhi <=? j)%Z then (newj2len, best)
      else
        let k := (default 0 (j2len !! (j - 1)) + 1)%Z in
        let newj2len := <[j := k]> newj2len in
        let best :=
          if (best.2 <? k)%Z then ((i - k + 1)%Z, (j - k + 1)%Z, k) else best in
        flm_row blo bhi i j2len js' newj2len best
  end.

(** One turn of [for i in range(alo, ahi)]; the state is [(j2len, best)]. *)
Definition flm_step (a : list ascii) (b2j : gmap ascii (list Z))
    (blo bhi : Z) (st : gmap Z Z * (Z * Z * Z)) (i : Z)
  : result (gmap Z Z * (Z * Z * Z)) :=
  let '(j2len, best) := st in
  let* elt := index a i in
  Ok (flm_row blo bhi i j2len (default [] (b2j !! elt)) ∅ best).

(** [while besti > alo and bestj > blo and a[besti-1] == b[bestj-1]]; [n] is
    [besti - alo], so that [besti > alo] reads [n] is not zero. *)
Fixpoint flm_extend_left (a b : list ascii) (blo : Z) (n : nat)
    (best : Z * Z * Z) : result (Z * Z * Z) :=
  let '(besti, bestj, bestsize) := best in
  match n with
  | O => Ok best
  | S n' =>
      if (blo <? bestj)%Z then
        let* x := index a (besti - 1) in
        let* y := index b (bestj - 1) in
        if Ascii.eqb x y
        then flm_extend_left a b blo n'
               ((besti - 1)%Z, (bestj - 1)%Z, (bestsize + 1)%Z)
        else Ok best
      else Ok best
  end.

(** [while besti+bestsize < ahi and bestj+bestsize < bhi and
    a[besti+bestsize] == b[bestj+bestsize]]; [n] is
    [ahi - (besti+bestsize)]. *)
Fixpoint flm_extend_right (a b : list ascii) (bhi : Z) (n : nat)
    (best : Z * Z * Z) : result (Z * Z * Z) :=
  let '(besti, bestj, bestsize) := best in
  match n with
  | O => Ok best
  | S n' =>
      if (bestj + bestsize <? bhi)%Z then
        let* x := index a (besti + bestsize) in
        let* y := index b (bestj + bestsize) in
        if Ascii.eqb x y
        then flm_extend_right a b bhi n' (besti, bestj, (bestsize + 1)%Z)
        else Ok best
      else Ok best
  end.

(** [find_longest_match(alo, ahi, blo, bhi)].  The set [bjunk] is empty, so
    the two loops that extend a match by junk elements never run their
    bodies and are left out. *)
Definition find_longest_match (a b : list ascii) (b2j : gmap ascii (list Z))
    (alo ahi blo bhi : Z) : result (Z * Z * Z) :=
  let* st := for_each (py_range alo ahi) (flm_step a b2j blo bhi)
               (∅, (alo, blo, 0%Z)) in
  let best := st.2 in
  let* best := flm_extend_left a b blo (Z.to_nat (best.1.1 - alo)) best in
  flm_extend_right a b bhi (Z.to_nat (ahi - (best.1.1 + best.2))) best.

(** The [while queue] loop of [get_matching_blocks].  The head of [queue] is
    the end of the Python list, the element [queue.pop()] takes.  The loop
    has no bound in Python; [fuel] bounds its turns here. *)
Fixpoint gmb_loop (a b : list ascii) (b2j : gmap ascii (list Z)) (fuel : nat)
    (queue : list (Z * Z * Z * Z)) (matching_blocks : list (Z * Z * Z))
  : result (list (Z * Z * Z)) :=
  match queue with
  | [] => Ok matching_blocks
  | (alo, ahi, blo, bhi) :: queue =>
      match fuel with
      | O => Raise OutOfFuel
      | S fuel =>
          let* x := find_longest_match a b b2j alo ahi blo bhi in
          let '(i, j, k) := x in
          if (k =? 0)%Z then gmb_loop a b b2j fuel queue matching_blocks
          else
            let queue :=
              if (alo <? i)%Z && (blo <? j)%Z
              then (alo, i, blo, j) :: queue else queue in
            let queue :=
              if (i + k <? ahi)%Z && (j + k <? bhi)%Z
              then ((i + k)%Z, ahi, (j + k)%Z, bhi) :: queue else queue in
            gmb_loop a b b2j fuel queue (matching_blocks ++ [x])
      end
  end.

(** [matching_blocks.sort()]: tuples of integers, in lexicographic order. *)
Definition block_leb (x y : Z * Z * Z) : bool :=
  let '(i1, j1, k1) := x in
  let '(i2, j2, k2) := y in
  (i1 <? i2)%Z
  || ((i1 =? i2)%Z && ((j1 <? j2)%Z || ((j1 =? j2)%Z && (k1 <=? k2)%Z))).

Fixpoint block_insert (x : Z * Z * Z) (l : list (Z * Z * Z))
  : list (Z * Z * Z) :=
  match l with
  | [] => [x]
  | y :: l' => if block_leb x y then x :: l else y :: block_insert x l'
  end.

Definition block_sort (l : list (Z * Z * Z)) : list (Z * Z * Z) :=
  fold_right block_insert [] l.

(** The loop that collapses adjacent blocks; the state is
    [((i1, j1, k1), non_adjacent)]. *)
Definition gmb_collapse_step (st : Z * Z * Z * list (Z * Z * Z))
    (x : Z * Z * Z) : Z * Z * Z * list (Z * Z * Z) :=
  let '(i1, j1, k1, non_adjacent) := st in
  let '(i2, j2, k2) := x in
  if (i1 + k1 =? i2)%Z && (j1 + k1 =? j2)%Z
  then (i1, j1, (k1 + k2)%Z, non_adjacent)
  else (i2, j2, k2,
        if (k1 =? 0)%Z then non_adjacent else non_adjacent ++ [(i1, j1, k1)]).

Definition get_matching_blocks (a b : list ascii) : result (list (Z * Z * Z)) :=
  let la := Z.of_nat (List.length a) in
  let lb := Z.of_nat (List.length b) in
  let* matching_blocks :=
    gmb_loop a b (chain_b b) (2 * List.length a + 2) [(0%Z, la, 0%Z, lb)] [] in
  let '(i1, j1, k1, non_adjacent) :=
    fold_left gmb_collapse_step (block_sort matching_blocks)
              (0%Z, 0%Z, 0%Z, []) in
  let non_adjacent :=
    if (k1 =? 0)%Z then non_adjacent else non_adjacent ++ [(i1, j1, k1)] in
  Ok (non_adjacent ++ [(la, lb, 0%Z)]).

(** [_calculate_ratio(matches, length)]. *)
Definition _calculate_ratio (matches length : Z) : result Q :=
  if (length =? 0)%Z then Ok 1%Q
  else py_div (2 * inject_Z matches)%Q (inject_Z length).

(** [sum(triple[-1] for triple in blocks)]. *)
Definition sum_sizes (blocks : list (Z * Z * Z)) : Z :=
  fold_left (fun acc x => (acc + x.2)%Z) blocks 0%Z.

(** [SequenceMatcher(None, a, b).ratio()]. *)
Definition ratio (a b : string) : result Q :=
  let* blocks := get_matching_blocks (chars a) (chars b) in
  let matches := sum_sizes blocks in
  _calculate_ratio matches
    (Z.of_nat (List.length (chars a)) + Z.of_nat (List.length (chars b)))%Z.

(** ** [_jaro_similarity] *)

(** The inner loop [for j in range(start, end)] of turn [i]: the first [j] of
    the window with [not s2_matches[j] and s1[i] == s2[j]] ([break]), or
    [None] when the loop runs to its end. *)
Fixpoint jaro_scan_window (s1 s2 : list ascii) (s2_matches : list bool)
    (i : Z) (js : list Z) : result (option Z) :=
  match js with
  | [] => Ok None
  | j :: js' =>
      let* used := index s2_matches j in
      if used then jaro_scan_window s1 s2 s2_matches i js'
      else
        let* c := index s1 i in
        let* d := index s2 j in
        if Ascii.eqb c d then Ok (Some j)
        else jaro_scan_window s1 s2 s2_matches i js'
  end.

(** One turn of the first [for i in range(len1)] loop; the state is
    [(s1_matches, s2_matches, matches)]. *)
Definition jaro_match_step (s1 s2 : list ascii) (match_dist : Z)
    (st : list bool * list bool * Z) (i : Z)
  : result (list bool * list bool * Z) :=
  let '(s1_matches, s2_matches, matches) := st in
  let len2 := Z.of_nat (List.length s2) in
  let start := Z.max 0 (i - match_dist) in
  let end_ := Z.min (i + match_dist + 1) len2 in
  let* found := jaro_scan_window s1 s2 s2_matches i (py_range start end_) in
  match found with
  | None => Ok st
  | Some j =>
      let* s2_matches' := assign s2_matches j true in
      let* s1_matches' := assign s1_matches i true in
      Ok (s1_matches', s2_matches', (matches + 1)%Z)
  end.

(** [while not s2_matches[k]: k += 1], with [rest] the part of [s2_matches]
    from index [k] on: the loop ends at the first [True], and reads past the
    end of the list when there is none. *)
Fixpoint jaro_skip_unmatched (rest : list bool) (k : Z) : result Z :=
  match rest with
  | [] => Raise IndexError
  | true :: _ => Ok k
  | false :: rest' => jaro_skip_unmatched rest' (k + 1)%Z
  end.

(** One turn of the second [for i in range(len1)] loop; the state is
    [(t, k)]. *)
Definition jaro_transposition_step (s1 s2 : list ascii)
    (s1_matches s2_matches : list bool) (st : Z * Z) (i : Z)
  : result (Z * Z) :=
  let '(t, k) := st in
  let* m := index s1_matches i in
  if m then
    let* k := jaro_skip_unmatched (drop (Z.to_nat k) s2_matches) k in
    let* c := index s1 i in
    let* d := index s2 k in
    let t := if Ascii.eqb c d then t else (t + 1)%Z in
    Ok (t, (k + 1)%Z)
  else Ok st.

Definition _jaro_similarity (s1 s2 : string) : result Q :=
  if String.eqb s1 s2 then Ok 1%Q
  else
    let a := chars s1 in
    let b := chars s2 in
    let len1 := Z.of_nat (List.length a) in
    let len2 := Z.of_nat (List.length b) in
    if (len1 =? 0)%Z || (len2 =? 0)%Z then Ok 0%Q
    else
      let match_dist := (Z.max len1 len2 / 2 - 1)%Z in
      let* st := for_each (py_range 0 len1) (jaro_match_step a b match_dist)
                   (repeat false (List.length a),
                    repeat false (List.length b), 0%Z) in
      let '(s1_matches, s2_matches, matches) := st in
      if (matches =? 0)%Z then Ok 0%Q
      else
        let* tk := for_each (py_range 0 len1)
                     (jaro_transposition_step a b s1_matches s2_matches)
                     (0%Z, 0%Z) in
        let t := (inject_Z (fst tk) / 2)%Q in
        let* x := py_div (inject_Z matches) (inject_Z len1) in
        let* y := py_div (inject_Z matches) (inject_Z len2) in
        let* z := py_div (inject_Z matches - t)%Q (inject_Z matches) in
        Ok ((x + y + z) / 3)%Q.

(** ** [calculate_similarity_score] *)

Definition len (s : string) : Z := Z.of_nat (String.length s).

Definition calculate_similarity_score (w1 w2 : string) : result Q :=
  if String.eqb (lower w1) (lower w2) then Ok 1%Q
  else
    let* seq_sim := ratio (lower w1) (lower w2) in
    let* phon_sim := ratio (normalize_phonetic w1) (normalize_phonetic w2) in
    let ld := Z.abs (len w1 - len w2) in
    let* q := py_div (inject_Z ld) (inject_Z (Z.max (len w1) (len w2))) in
    let lp := (1 - q)%Q in
    let* jaro := _jaro_similarity (lower w1) (lower w2) in
    Ok (seq_sim * (3 # 10) + phon_sim * (4 # 10) + lp * (1 # 10)
        + jaro * (2 # 10))%Q.

(** ** The corrector and its reference dictionary *)

(** The two attributes of the object that the search reads.
    [reference_words] is a Python [set]: it is kept as the list of its
    elements in the order in which the set yields them, which Python leaves
    unspecified; [word_variants] is the [defaultdict(list)]. *)
Record NonEnglishSpellCorrector : Type := {
  reference_words : list string;
  word_variants : gmap string (list string);
}.

(** [str.isspace] on one code point below 256. *)
Definition is_space (c : ascii) : bool :=
  let n := nat_of_ascii c in
  (Nat.leb 9 n && Nat.leb n 13) || (Nat.leb 28 n && Nat.leb n 32)
  || Nat.eqb n 133 || Nat.eqb n 160.

Fixpoint lstrip (s : list ascii) : list ascii :=
  match s with
  | c :: s' => if is_space c then lstrip s' else s
  | [] => []
  end.

(** [line.strip()]. *)
Definition strip (line : string) : string :=
  str (rev (lstrip (rev (lstrip (chars line))))).

(** The body of [for line in f] in [load_reference_dictionary].  Adding to
    the set leaves it as it is when the word is already in it; a new word is
    listed last. *)
Definition load_line (c : NonEnglishSpellCorrector) (line : string)
  : NonEnglishSpellCorrector :=
  let word := strip line in
  if String.eqb word "" then c
  else
    {| reference_words :=
         if bool_decide (word ∈ reference_words c) then reference_words c
         else reference_words c ++ [word];
       word_variants :=
         <[lower word := default [] (word_variants c !! lower word) ++ [word]]>
           (word_variants c) |}.

(** [__init__] followed by [load_reference_dictionary], on the lines of the
    reference file. *)
Definition load_reference_dictionary (lines : list string)
  : NonEnglishSpellCorrector :=
  fold_left load_line lines {| reference_words := []; word_variants := ∅ |}.

(** ** [find_best_match] *)

(** One turn of [for ref in self.reference_words]; the state is
    [(best, best_score)]. *)
Definition find_best_match_step (score : string -> string -> result Q)
    (error_word : string) (threshold : Q) (st : string * Q) (ref : string)
  : result (string * Q) :=
  let '(best, best_score) := st in
  let* sc := score error_word ref in
  if Qle_bool threshold sc && Qlt_bool best_score sc
  then Ok (ref, sc)
  else Ok (best, best_score).

(** [find_best_match], with the scorer it calls as a parameter. *)
Definition find_best_match_with (score : string -> string -> result Q)
    (c : NonEnglishSpellCorrector) (error_word : string) (threshold : Q)
  : result string :=
  let lw := lower error_word in
  match word_variants c !! lw with
  | Some variants => index variants 0
  | None =>
      let* st := for_each (reference_words c)
                   (find_best_match_step score error_word threshold)
                   (error_word, 0%Q) in
      Ok st.1
  end.

Definition find_best_match : NonEnglishSpellCorrector -> string -> Q ->
                             result string :=
  find_best_match_with calculate_similarity_score.

Definition demo_reference : list string :=
  ["Ram"; "Krishna"; "Shiva"; "Vishnu"; "Ganga"; "Yamuna";
   "Radha"; "Sita"; "Hanuman"; "Arjun"; "Bharat"; "Lakshman"].

(** ** The scores as the program computes them: binary64

    Python's [float] is the IEEE 754 binary64 format.  Its operations are
    those of [SpecFloat] at precision 53: each rounds the exact result to the
    nearest float, ties to the even mantissa.  An [int] turns into a float
    when it meets one in an operation; the lengths and counts of this program
    are far below [2^53] and turn into floats exactly.  A division raises
    [ZeroDivisionError] when the divisor, an [int] in every division of the
    source, is 0. *)

Definition float : Type := SpecFloat.spec_float.

Definition float_of_int (z : Z) : float :=
  SpecFloat.binary_normalize 53 1024 z 0 false.

Definition float_add : float -> float -> float := SpecFloat.SFadd 53 1024.
Definition float_sub : float -> float -> float := SpecFloat.SFsub 53 1024.
Definition float_mul : float -> float -> float := SpecFloat.SFmul 53 1024.

(** [x / n] for a float [x] and an [int] [n]. *)
Definition float_div_int (x : float) (n : Z) : result float :=
  if (n =? 0)%Z then Raise ZeroDivisionError
  else Ok (SpecFloat.SFdiv 53 1024 x (float_of_int n)).

(** [m / n] for two [int]: the quotient rounded once. *)
Definition int_div_int (m n : Z) : result float :=
  float_div_int (float_of_int m) n.

(** A decimal literal [0.d]: the float nearest to [d / 10]. *)
Definition float_tenths (d : Z) : float :=
  SpecFloat.SFdiv 53 1024 (float_of_int d) (float_of_int 10).

(** The number a float stands for; Python compares two floats ([>=], [>])
    as it compares these numbers.  The infinities and NaN stand for no
    number and are given 0 here; the scores, which lie between 0.0 and 1.0,
    are none of them. *)
Definition float_value (x : float) : Q :=
  match x with
  | SpecFloat.S754_finite s m e =>
      ((if s then inject_Z (Zneg m) else inject_Z (Zpos m)) * Qpower 2 e)%Q
  | _ => 0%Q
  end.

(** [_calculate_ratio(matches, length)]. *)
Definition _calculate_ratio_binary64 (matches length : Z) : result float :=
  if (length =? 0)%Z then Ok (float_of_int 1)
  else float_div_int (float_mul (float_of_int 2) (float_of_int matches)) length.

(** [SequenceMatcher(None, a, b).ratio()]. *)
Definition ratio_binary64 (a b : string) : result float :=
  let* blocks := get_matching_blocks (chars a) (chars b) in
  let matches := sum_sizes blocks in
  _calculate_ratio_binary64 matches
    (Z.of_nat (List.length (chars a)) + Z.of_nat (List.length (chars b)))%Z.

Definition _jaro_similarity_binary64 (s1 s2 : string) : result float :=
  if String.eqb s1 s2 then Ok (float_of_int 1)
  else
    let a := chars s1 in
    let b := chars s2 in
    let len1 := Z.of_nat (List.length a) in
    let len2 := Z.of_nat (List.length b) in
    if (len1 =? 0)%Z || (len2 =? 0)%Z then Ok (float_of_int 0)
    else
      let match_dist := (Z.max len1 len2 / 2 - 1)%Z in
      let* st := for_each (py_range 0 len1) (jaro_match_step a b match_dist)
                   (repeat false (List.length a),
                    repeat false (List.length b), 0%Z) in
      let '(s1_matches, s2_matches, matches) := st in
      if (matches =? 0)%Z then Ok (float_of_int 0)
      else
        let* tk := for_each (py_range 0 len1)
                     (jaro_transposition_step a b s1_matches s2_matches)
                     (0%Z, 0%Z) in
        let* t := int_div_int (fst tk) 2 in
        let* x := int_div_int matches len1 in
        let* y := int_div_int matches len2 in
        let* z := float_div_int (float_sub (float_of_int matches) t) matches in
        float_div_int (float_add (float_add x y) z) 3.

Definition calculate_similarity_score_binary64 (w1 w2 : string)
  : result float :=
  if String.eqb (lower w1) (lower w2) then Ok (float_of_int 1)
  else
    let* seq_sim := ratio_binary64 (lower w1) (lower w2) in
    let* phon_sim :=
      ratio_binary64 (normalize_phonetic w1) (normalize_phonetic w2) in
    let ld := Z.abs (len w1 - len w2) in
    let* q := int_div_int ld (Z.max (len w1) (len w2)) in
    let lp := float_sub (float_of_int 1) q in
    let* jaro := _jaro_similarity_binary64 (lower w1) (lower w2) in
    Ok (float_add
          (float_add
             (float_add (float_mul seq_sim (float_tenths 3))
                        (float_mul phon_sim (float_tenths 4)))
             (float_mul lp (float_tenths 1)))
          (float_mul jaro (float_tenths 2))).

(** The scorer as the search sees it: the number its float stands for. *)
Definition score_binary64 (w1 w2 : string) : result Q :=
  let* s := calculate_similarity_score_binary64 w1 w2 in
  Ok (float_value s).

(** [find_best_match] on binary64 scores; the threshold is the number the
    caller's float stands for. *)
Definition find_best_match_binary64
  : NonEnglishSpellCorrector -> string -> Q -> result string :=
  find_best_match_with score_binary64.

(** * Invariants used in the proofs *)

(** [(besti, bestj, bestsize)] lies inside [a[alo:ahi]] and [b[blo:bhi]]. *)
Definition block_in (alo ahi blo bhi : Z) (best : Z * Z * Z) : Prop :=
  (alo <= best.1.1 /\ blo <= best.1.2 /\ 0 <= best.2
   /\ best.1.1 + best.2 <= ahi /\ best.1.2 + best.2 <= bhi)%Z.

(** The lengths [j2len] holds after turn [i]: a match that ends at [a[i]] and
    [b[j]] starts neither before [alo] nor before [blo]. *)
Definition j2len_in (alo blo i : Z) (j2len : gmap Z Z) : Prop :=
  forall j v, j2len !! j = Some v ->
              (1 <= v /\ v <= i - alo + 1 /\ v <= j - blo + 1)%Z.

(** A window [(alo, ahi, blo, bhi)] of the queue lies inside [a] and [b]. *)
Definition window_in (a b : list ascii) (w : Z * Z * Z * Z) : Prop :=
  let '(alo, ahi, blo, bhi) := w in
  (0 <= alo <= ahi /\ ahi <= Z.of_nat (List.length a)
   /\ 0 <= blo <= bhi /\ bhi <= Z.of_nat (List.length b))%Z.

(** A bound on the turns the [while queue] loop still takes. *)
Fixpoint queue_turns (queue : list (Z * Z * Z * Z)) : nat :=
  match queue with
  | [] => O
  | (alo, ahi, _, _) :: queue => 2 * Z.to_nat (ahi - alo) + 1 + queue_turns queue
  end.

(** The elements of [a], and of [b], that the windows of the queue cover. *)
Fixpoint queue_span_a (queue : list (Z * Z * Z * Z)) : Z :=
  match queue with
  | [] => 0
  | (alo, ahi, _, _) :: queue => (ahi - alo) + queue_span_a queue
  end.

Fixpoint queue_span_b (queue : list (Z * Z * Z * Z)) : Z :=
  match queue with
  | [] => 0
  | (_, _, blo, bhi) :: queue => (bhi - blo) + queue_span_b queue
  end.

(** The number of [True] in a list of flags. *)
Fixpoint count_true (l : list bool) : Z :=
  match l with
  | [] => 0
  | x :: l => (if x then 1 else 0) + count_true l
  end.

(** The state [(s1_matches, s2_matches, matches)] before turn [i] of the
    first loop of [_jaro_similarity]: both lists of flags hold [matches]
    times [True], and no flag of [s1_matches] is set from [i] on.  [shared]
    says that the two strings have a character in common. *)
Definition jaro_matched (s1 s2 : list ascii) (shared : Prop) (i : Z)
    (st : list bool * list bool * Z) : Prop :=
  let '(s1_matches, s2_matches, matches) := st in
  List.length s1_matches = List.length s1
  /\ List.length s2_matches = List.length s2
  /\ count_true s1_matches = matches
  /\ count_true s2_matches = matches
  /\ (forall i' : nat, (i <= Z.of_nat i')%Z -> s1_matches !! i' <> Some true)
  /\ ((0 < matches)%Z -> shared).

(** The state [(t, k)] before turn [i] of the second loop: as many flags are
    set in [s1_matches] from [i] on as in [s2_matches] from [k] on, and [t]
    counts at most the flags passed in [s1_matches]. *)
Definition jaro_walked (s1_matches s2_matches : list bool) (i : Z)
    (st : Z * Z) : Prop :=
  let '(t, k) := st in
  (0 <= k)%Z
  /\ (0 <= t <= count_true (take (Z.to_nat i) s1_matches))%Z
  /\ count_true (drop (Z.to_nat i) s1_matches)
     = count_true (drop (Z.to_nat k) s2_matches).

(** The score of a candidate, as a number ([calculate_similarity_score]
    never raises, see [calculate_similarity_score_total]). *)
Definition score_of (w1 w2 : string) : Q :=
  match calculate_similarity_score w1 w2 with
  | Ok q => q
  | Raise _ => 0%Q
  end.

(** The number a scorer returns for two tokens, 0 when it raises. *)
Definition score_with (score : string -> string -> result Q)
    (w1 w2 : string) : Q :=
  match score w1 w2 with
  | Ok q => q
  | Raise _ => 0%Q
  end.

(** What [load_reference_dictionary] establishes: the words of the set are
    not empty and each has its lowercase form as a key; the list under a key
    is not empty and holds words of the set with that lowercase form; the set
    holds no word twice. *)
Definition dictionary_inv (c : NonEnglishSpellCorrector) : Prop :=
  (forall w, w ∈ reference_words c ->
             w <> "" /\ is_Some (word_variants c !! lower w))
  /\ (forall k l, word_variants c !! k = Some l ->
                  l <> [] /\ forall w, w ∈ l ->
                                       lower w = k /\ w ∈ reference_words c)
  /\ NoDup (reference_words c).

(** The words a reference file holds, in the order of its lines. *)
Definition words_of (lines : list string) : list string :=
  filter (fun w => w <> "") (map strip lines).

(** * Properties of strings used in the statements *)

(** No character of the class [cls] stands twice in a row in [l]. *)
Definition no_double (cls : ascii -> bool) (l : list ascii) : Prop :=
  forall i c, l !! i = Some c -> l !! S i = Some c -> cls c = false.

(** * The files

    The last part of the source reads and writes text files.  Opening,
    decoding and writing are the operating system's and can fail in many
    ways; the model starts from the text a file was read as, and ends with
    the text the source passes to [write]. *)

Definition LF : ascii := ascii_of_nat 10.
Definition CR : ascii := ascii_of_nat 13.
Definition TAB : ascii := ascii_of_nat 9.

(** [for line in f] on a file opened for reading in text mode: a line ends
    at ["\n"], at ["\r"] or at ["\r\n"], each read as ["\n"], and keeps its
    end; the last line may have none.  [cur] is the line being read, last
    character first. *)
Fixpoint file_lines (cur : list ascii) (text : list ascii) : list string :=
  match text with
  | [] =>
      match cur with
      | [] => []
      | _ => [str (rev cur)]
      end
  | c :: rest =>
      if Ascii.eqb c LF then str (rev (LF :: cur)) :: file_lines [] rest
      else if Ascii.eqb c CR then
        match rest with
        | d :: rest' =>
            if Ascii.eqb d LF
            then str (rev (LF :: cur)) :: file_lines [] rest'
            else str (rev (LF :: cur)) :: file_lines [] rest
        | [] => [str (rev (LF :: cur))]
        end
      else file_lines (c :: cur) rest
  end.

(** The body of [for line in fin] in [process_file]; the state is
    [results].  Like the search it calls, it takes the scorer as a
    parameter. *)
Definition process_line (score : string -> string -> result Q)
    (c : NonEnglishSpellCorrector) (threshold : Q)
    (results : list (string * string)) (line : string)
  : result (list (string * string)) :=
  let w := strip line in
  if String.eqb w "" then Ok results
  else
    let* corr := find_best_match_with score c w threshold in
    Ok (results ++ [(w, corr)]).

(** What [fout.write(f"{orig}\t{corr}\n")] writes. *)
Definition output_row (r : string * string) : string :=
  (r.1 ++ String TAB (r.2 ++ String LF ""))%string.

Definition output_header : string :=
  ("Original" ++ String TAB ("Corrected" ++ String LF ""))%string.

(** The text [process_file] writes for [results]: the header, then the rows
    in order. *)
Definition output_text (results : list (string * string)) : string :=
  fold_left (fun text r => (text ++ output_row r)%string) results output_header.

(** The loop [for line in fin] of [process_file] on the lines the input
    file yields: the list [results]. *)
Definition process_file_results (score : string -> string -> result Q)
    (c : NonEnglishSpellCorrector) (lines : list string) (threshold : Q)
  : result (list (string * string)) :=
  for_each lines (process_line score c threshold) [].

(** No character of [s] ends a line. *)
Definition no_newline (s : string) : Prop :=
  Forall (fun c => c <> LF /\ c <> CR) (chars s).

(** * Properties *)

(** ** The model on the examples of the source and of the libraries *)

Example normalize_Kriishna : normalize_phonetic "Kriishna" = "krisna".
Proof. reflexivity. Qed.

Example normalize_Shiiv : normalize_phonetic "Shiiv" = "siv".
Proof. reflexivity. Qed.

Example normalize_six_a : normalize_phonetic "aaaaaab" = "ab".
Proof. reflexivity. Qed.

Example jaro_martha :
  value (_jaro_similarity "martha" "marhta") = Some (17 # 18)%Q.
Proof. vm_compute. reflexivity. Qed.

Example jaro_dixon :
  value (_jaro_similarity "dixon" "dicksonx") = Some (23 # 30)%Q.
Proof. vm_compute. reflexivity. Qed.

Example ratio_abcd_bcde : value (ratio "abcd" "bcde") = Some (3 # 4)%Q.
Proof. vm_compute. reflexivity. Qed.

Example demo_run :
  map (fun w => find_best_match (load_reference_dictionary demo_reference)
                                w (6 # 10))
      ["RAAM"; "Kriishna"; "Shiiv"; "Gaanga"; "Yamuuna"]
  = [Ok "Ram"; Ok "Krishna"; Ok "Shiva"; Ok "Ganga"; Ok "Yamuna"].
Proof. vm_compute. reflexivity. Qed.

Example ratio_tide_diet :
  value (ratio "tide" "diet") = Some (1 # 4)%Q
  /\ value (ratio "diet" "tide") = Some (1 # 2)%Q.
Proof. vm_compute. split; reflexivity. Qed.

(** ** Lists and loops *)

Lemma index_Ok {A : Type} (l : list A) (j : Z) :
  (0 <= j < Z.of_nat (List.length l))%Z ->
  exists x, index l j = Ok x /\ l !! Z.to_nat j = Some x.
Proof.
  intros Hj. unfold index.
  destruct (j <? 0)%Z eqn:E; [lia|]. rewrite E.
  destruct (l !! Z.to_nat j) as [x|] eqn:Hx; [eauto|].
  apply lookup_ge_None in Hx. lia.
Qed.

Lemma assign_Ok {A : Type} (l : list A) (j : Z) (v : A) :
  (0 <= j < Z.of_nat (List.length l))%Z ->
  assign l j v = Ok (<[Z.to_nat j := v]> l).
Proof.
  intros Hj. unfold assign.
  destruct (j <? 0)%Z eqn:E; [lia|]. rewrite E. simpl.
  destruct (Z.of_nat (List.length l) <=? j)%Z eqn:E'; [lia | reflexivity].
Qed.

Lemma py_range_nil (lo hi : Z) : (hi <= lo)%Z -> py_range lo hi = [].
Proof.
  intros H. unfold py_range. replace (Z.to_nat (hi - lo)) with O by lia.
  reflexivity.
Qed.

Lemma py_range_cons (lo hi : Z) :
  (lo < hi)%Z -> py_range lo hi = lo :: py_range (lo + 1) hi.
Proof.
  intros H. unfold py_range.
  replace (Z.to_nat (hi - lo)) with (S (Z.to_nat (hi - (lo + 1)))) by lia.
  simpl. f_equal; [lia|].
  rewrite <- seq_shift, map_map. apply map_ext. intros k. lia.
Qed.

Lemma py_range_elem (lo hi j : Z) :
  j ∈ py_range lo hi <-> (lo <= j < hi)%Z.
Proof.
  unfold py_range. rewrite list_elem_of_In, in_map_iff. split.
  - intros (k & <- & Hk). apply in_seq in Hk. lia.
  - intros Hj. exists (Z.to_nat (j - lo)). split; [lia|].
    apply in_seq. lia.
Qed.

(** A loop over [range(lo, hi)] whose body keeps an invariant (indexed by the
    next value of the loop variable) ends without an exception, in a state
    where the invariant holds at [hi]. *)
Lemma for_each_range {S : Type} (P : Z -> S -> Prop)
    (body : S -> Z -> result S) (lo hi : Z) (s0 : S) :
  (lo <= hi)%Z ->
  P lo s0 ->
  (forall i s, (lo <= i < hi)%Z -> P i s ->
               exists s', body s i = Ok s' /\ P (i + 1)%Z s') ->
  exists s', for_each (py_range lo hi) body s0 = Ok s' /\ P hi s'.
Proof.
  intros Hle. remember (Z.to_nat (hi - lo)) as n eqn:Hn.
  revert lo s0 Hle Hn. induction n as [|n IH]; intros lo s0 Hle Hn H0 Hstep.
  - assert (lo = hi) as -> by lia. rewrite py_range_nil by lia.
    simpl. eauto.
  - rewrite py_range_cons by lia. simpl.
    destruct (Hstep lo s0) as (s1 & -> & H1); [lia | assumption |]. simpl.
    apply IH; [lia | lia | assumption |].
    intros i s Hi. apply Hstep. lia.
Qed.
(** ** [difflib]: the longest match lies inside its window *)

Lemma flm_row_in (alo blo bhi i : Z) (j2len : gmap Z Z) (js : list Z) :
  (alo <= i)%Z ->
  j2len_in alo blo (i - 1) j2len ->
  forall newj2len best,
    j2len_in alo blo i newj2len ->
    block_in alo (i + 1) blo bhi best ->
    j2len_in alo blo i (flm_row blo bhi i j2len js newj2len best).1
    /\ block_in alo (i + 1) blo bhi
         (flm_row blo bhi i j2len js newj2len best).2.
Proof.
  intros Hi Hold. induction js as [|j js IH]; intros newj2len best Hnew Hbest.
  - simpl. auto.
  - simpl. destruct (j <? blo)%Z eqn:E1; [auto|].
    destruct (bhi <=? j)%Z eqn:E2; [simpl; auto|].
    set (k := (default 0%Z (j2len !! (j - 1)%Z) + 1)%Z).
    assert (Hk : (1 <= k /\ k <= i - alo + 1 /\ k <= j - blo + 1)%Z).
    { subst k. destruct (j2len !! (j - 1)%Z) as [v|] eqn:Hv; simpl.
      - apply Hold in Hv. lia.
      - lia. }
    apply IH.
    + intros j' v'. rewrite lookup_insert.
      case_decide; [intros [= <-]; subst; lia | apply Hnew].
    + destruct (best.2 <? k)%Z eqn:E3; [|assumption].
      unfold block_in. simpl. lia.
Qed.

Lemma flm_step_in (a : list ascii) (b2j : gmap ascii (list Z))
    (alo ahi blo bhi i : Z) (j2len : gmap Z Z) (best : Z * Z * Z) :
  (0 <= alo)%Z -> (ahi <= Z.of_nat (List.length a))%Z ->
  (alo <= i < ahi)%Z ->
  j2len_in alo blo (i - 1) j2len ->
  block_in alo i blo bhi best ->
  exists st, flm_step a b2j blo bhi (j2len, best) i = Ok st
             /\ j2len_in alo blo i st.1
             /\ block_in alo (i + 1) blo bhi st.2.
Proof.
  intros Hlo Hhi Hi Hold Hbest. unfold flm_step.
  destruct (index_Ok a i) as (elt & -> & _); [lia|]. simpl.
  eexists. split; [reflexivity|].
  apply flm_row_in; try assumption; try lia.
  - intros j v. rewrite lookup_empty. discriminate.
  - unfold block_in in *. lia.
Qed.

Lemma flm_extend_left_in (a b : list ascii) (alo ahi blo bhi : Z) (n : nat)
    (best : Z * Z * Z) :
  (0 <= alo)%Z -> (ahi <= Z.of_nat (List.length a))%Z ->
  (0 <= blo)%Z -> (bhi <= Z.of_nat (List.length b))%Z ->
  (Z.of_nat n <= best.1.1 - alo)%Z ->
  block_in alo ahi blo bhi best ->
  exists best', flm_extend_left a b blo n best = Ok best'
                /\ block_in alo ahi blo bhi best'.
Proof.
  intros Ha1 Ha2 Hb1 Hb2. revert best.
  induction n as [|n IH]; intros [[besti bestj] bestsize] Hn Hbest;
    unfold block_in in *; simpl in *.
  - eauto.
  - destruct (blo <? bestj)%Z eqn:E; [|eauto].
    destruct (index_Ok a (besti - 1)) as (x & -> & _); [lia|].
    destruct (index_Ok b (bestj - 1)) as (y & -> & _); [lia|]. simpl.
    destruct (Ascii.eqb x y); [|eauto].
    apply IH; simpl; lia.
Qed.

Lemma flm_extend_right_in (a b : list ascii) (alo ahi blo bhi : Z) (n : nat)
    (best : Z * Z * Z) :
  (0 <= alo)%Z -> (ahi <= Z.of_nat (List.length a))%Z ->
  (0 <= blo)%Z -> (bhi <= Z.of_nat (List.length b))%Z ->
  (Z.of_nat n <= ahi - (best.1.1 + best.2))%Z ->
  block_in alo ahi blo bhi best ->
  exists best', flm_extend_right a b bhi n best = Ok best'
                /\ block_in alo ahi blo bhi best'.
Proof.
  intros Ha1 Ha2 Hb1 Hb2. revert best.
  induction n as [|n IH]; intros [[besti bestj] bestsize] Hn Hbest;
    unfold block_in in *; simpl in *.
  - eauto.
  - destruct (bestj + bestsize <? bhi)%Z eqn:E; [|eauto].
    destruct (index_Ok a (besti + bestsize)) as (x & -> & _); [lia|].
    destruct (index_Ok b (bestj + bestsize)) as (y & -> & _); [lia|]. simpl.
    destruct (Ascii.eqb x y); [|eauto].
    apply IH; simpl; lia.
Qed.

(** [find_longest_match] returns, and its block lies inside the window. *)
Lemma find_longest_match_in (a b : list ascii) (b2j : gmap ascii (list Z))
    (alo ahi blo bhi : Z) :
  (0 <= alo <= ahi)%Z -> (ahi <= Z.of_nat (List.length a))%Z ->
  (0 <= blo <= bhi)%Z -> (bhi <= Z.of_nat (List.length b))%Z ->
  exists x, find_longest_match a b b2j alo ahi blo bhi = Ok x
            /\ block_in alo ahi blo bhi x.
Proof.
  intros Ha1 Ha2 Hb1 Hb2. unfold find_longest_match.
  destruct (for_each_range
              (fun i st => j2len_in alo blo (i - 1) st.1
                           /\ block_in alo i blo bhi st.2)
              (flm_step a b2j blo bhi) alo ahi (∅, (alo, blo, 0%Z)))
    as (st & -> & Hj & Hbest).
  - lia.
  - split; simpl.
    + intros j v. rewrite lookup_empty. discriminate.
    + unfold block_in. simpl. lia.
  - intros i [j2len best] Hi [Hj Hbest]. cbn [fst snd] in *.
    destruct (flm_step_in a b2j alo ahi blo bhi i j2len best)
      as (st & -> & H1 & H2); try assumption; try lia.
    exists st. replace (i + 1 - 1)%Z with i by lia. auto.
  - simpl.
    destruct (flm_extend_left_in a b alo ahi blo bhi
                (Z.to_nat (st.2.1.1 - alo)) st.2)
      as (best' & -> & Hbest'); try assumption; try lia.
    { unfold block_in in Hbest. lia. }
    simpl.
    apply (flm_extend_right_in a b alo ahi blo bhi); try assumption; try lia.
    unfold block_in in Hbest'. lia.
Qed.

(** ** [difflib]: the matching blocks and the ratio *)

Lemma sum_sizes_from (l : list (Z * Z * Z)) (z : Z) :
  fold_left (fun acc x => (acc + x.2)%Z) l z = (z + sum_sizes l)%Z.
Proof.
  unfold sum_sizes. revert z. induction l as [|x l IH]; intros z; simpl.
  - lia.
  - rewrite IH, (IH (0 + x.2)%Z). lia.
Qed.

Lemma sum_sizes_cons (x : Z * Z * Z) (l : list (Z * Z * Z)) :
  sum_sizes (x :: l) = (x.2 + sum_sizes l)%Z.
Proof. unfold sum_sizes at 1. simpl. rewrite sum_sizes_from. lia. Qed.

Lemma sum_sizes_app (l1 l2 : list (Z * Z * Z)) :
  sum_sizes (l1 ++ l2) = (sum_sizes l1 + sum_sizes l2)%Z.
Proof.
  induction l1 as [|x l1 IH]; simpl.
  - unfold sum_sizes at 2. simpl. lia.
  - rewrite !sum_sizes_cons, IH. lia.
Qed.

Lemma sum_sizes_snoc (l : list (Z * Z * Z)) (x : Z * Z * Z) :
  sum_sizes (l ++ [x]) = (sum_sizes l + x.2)%Z.
Proof. rewrite sum_sizes_app, sum_sizes_cons. unfold sum_sizes. simpl. lia. Qed.

(** The loop ends within the turns counted by [queue_turns], and the blocks
    it adds are no longer, together, than what the queue covers. *)
Lemma gmb_loop_total (a b : list ascii) (b2j : gmap ascii (list Z))
    (fuel : nat) :
  forall queue blocks,
    Forall (window_in a b) queue ->
    queue_turns queue <= fuel ->
    exists blocks',
      gmb_loop a b b2j fuel queue blocks = Ok blocks'
      /\ (sum_sizes blocks <= sum_sizes blocks')%Z
      /\ (sum_sizes blocks' <= sum_sizes blocks + queue_span_a queue)%Z
      /\ (sum_sizes blocks' <= sum_sizes blocks + queue_span_b queue)%Z.
Proof.
  induction fuel as [|fuel IH]; intros queue blocks Hq Hfuel.
  - destruct queue as [|[[[alo ahi] blo] bhi] queue]; simpl in *.
    + exists blocks. repeat split; lia.
    + lia.
  - destruct queue as [|[[[alo ahi] blo] bhi] queue]; simpl in *.
    + exists blocks. repeat split; lia.
    + apply Forall_cons in Hq as [Hw Hq]. simpl in Hw.
      destruct (find_longest_match_in a b b2j alo ahi blo bhi)
        as ([[i j] k] & -> & Hin); try lia.
      unfold block_in in Hin. simpl in Hin. simpl.
      destruct (k =? 0)%Z eqn:Ek.
      * destruct (IH queue blocks) as (blocks' & -> & H1 & H2 & H3);
          [assumption | lia |].
        exists blocks'. repeat split; lia.
      * set (q1 := if (alo <? i)%Z && (blo <? j)%Z
                   then (alo, i, blo, j) :: queue else queue).
        set (q2 := if (i + k <? ahi)%Z && (j + k <? bhi)%Z
                   then ((i + k)%Z, ahi, (j + k)%Z, bhi) :: q1 else q1).
        assert (Hq1 : Forall (window_in a b) q1
                      /\ (queue_span_a q1 <= i - alo + queue_span_a queue)%Z
                      /\ (queue_span_b q1 <= j - blo + queue_span_b queue)%Z
                      /\ queue_turns q1
                         <= 2 * Z.to_nat (i - alo) + 1 + queue_turns queue).
        { subst q1. destruct ((alo <? i)%Z && (blo <? j)%Z); simpl.
          - repeat split; try lia. apply Forall_cons. split; [|assumption].
            simpl. lia.
          - repeat split; try lia. assumption. }
        destruct Hq1 as (Hq1 & Ha1 & Hb1 & Ht1).
        assert (Hq2 : Forall (window_in a b) q2
                      /\ (queue_span_a q2
                          <= ahi - (i + k) + queue_span_a q1)%Z
                      /\ (queue_span_b q2
                          <= bhi - (j + k) + queue_span_b q1)%Z
                      /\ queue_turns q2
                         <= 2 * Z.to_nat (ahi - (i + k)) + 1 + queue_turns q1
                      /\ (ahi <= i + k -> queue_turns q2 = queue_turns q1)%Z).
        { subst q2.
          destruct (i + k <? ahi)%Z eqn:E1; destruct (j + k <? bhi)%Z eqn:E2;
            simpl; repeat split; try lia; try assumption.
          apply Forall_cons. split; [|assumption]. simpl. lia. }
        destruct Hq2 as (Hq2 & Ha2 & Hb2 & Ht2 & Ht2').
        destruct (IH q2 (blocks ++ [(i, j, k)]))
          as (blocks' & -> & H1 & H2 & H3); [assumption | lia |].
        rewrite sum_sizes_snoc in H1, H2, H3. simpl in H1, H2, H3.
        exists blocks'. repeat split; lia.
Qed.

Lemma sum_sizes_insert (x : Z * Z * Z) (l : list (Z * Z * Z)) :
  sum_sizes (block_insert x l) = (x.2 + sum_sizes l)%Z.
Proof.
  induction l as [|y l IH]; simpl.
  - rewrite sum_sizes_cons. reflexivity.
  - destruct (block_leb x y).
    + rewrite !sum_sizes_cons. lia.
    + rewrite !sum_sizes_cons, IH. lia.
Qed.

Lemma sum_sizes_sort (l : list (Z * Z * Z)) :
  sum_sizes (block_sort l) = sum_sizes l.
Proof.
  unfold block_sort. induction l as [|x l IH]; simpl.
  - reflexivity.
  - rewrite sum_sizes_insert, sum_sizes_cons, IH. reflexivity.
Qed.

Lemma sum_sizes_collapse (l : list (Z * Z * Z)) :
  forall st,
    let st' := fold_left gmb_collapse_step l st in
    (st'.1.2 + sum_sizes st'.2 = st.1.2 + sum_sizes st.2 + sum_sizes l)%Z.
Proof.
  induction l as [|[[i2 j2] k2] l IH]; intros [[[i1 j1] k1] non_adjacent];
    simpl.
  - unfold sum_sizes at 3. simpl. lia.
  - rewrite sum_sizes_cons. simpl.
    destruct ((i1 + k1 =? i2)%Z && (j1 + k1 =? j2)%Z).
    + rewrite IH. simpl. lia.
    + rewrite IH. simpl. destruct (k1 =? 0)%Z eqn:E.
      * lia.
      * rewrite sum_sizes_snoc. simpl. lia.
Qed.

(** [get_matching_blocks] returns, and its blocks are no longer, together,
    than [a] and than [b]. *)
Lemma get_matching_blocks_total (a b : list ascii) :
  exists blocks,
    get_matching_blocks a b = Ok blocks
    /\ (0 <= sum_sizes blocks)%Z
    /\ (sum_sizes blocks <= Z.of_nat (List.length a))%Z
    /\ (sum_sizes blocks <= Z.of_nat (List.length b))%Z.
Proof.
  unfold get_matching_blocks.
  destruct (gmb_loop_total a b (chain_b b) (2 * List.length a + 2)
              [(0%Z, Z.of_nat (List.length a), 0%Z, Z.of_nat (List.length b))]
              [])
    as (blocks & -> & H1 & H2 & H3).
  - apply Forall_cons. split; [simpl; lia | constructor].
  - simpl. lia.
  - simpl.
    pose proof (sum_sizes_collapse (block_sort blocks) (0%Z, 0%Z, 0%Z, []))
      as Hc.
    destruct (fold_left gmb_collapse_step (block_sort blocks)
                (0%Z, 0%Z, 0%Z, [])) as [[[i1 j1] k1] non_adjacent].
    simpl in Hc. rewrite sum_sizes_sort in Hc.
    unfold sum_sizes at 2 in Hc. simpl in Hc.
    eexists. split; [reflexivity|].
    rewrite sum_sizes_snoc. simpl.
    assert (Hs : sum_sizes (if (k1 =? 0)%Z then non_adjacent
                            else non_adjacent ++ [(i1, j1, k1)])
                 = sum_sizes blocks).
    { destruct (k1 =? 0)%Z eqn:E.
      - lia.
      - rewrite sum_sizes_snoc. simpl. lia. }
    rewrite Hs.
    change (sum_sizes []) with 0%Z in *. simpl in H2, H3. lia.
Qed.

(** ** Rational arithmetic *)

Lemma py_div_Ok (x y : Q) : ~ (y == 0)%Q -> py_div x y = Ok (x / y)%Q.
Proof.
  intros Hy. unfold py_div. destruct (Qeq_bool y 0) eqn:E; [|reflexivity].
  apply Qeq_bool_iff in E. contradiction.
Qed.

Lemma Qdiv_unit (x y : Q) :
  (0 <= x)%Q -> (x <= y)%Q -> (0 < y)%Q -> (0 <= x / y <= 1)%Q.
Proof.
  intros H0 Hxy Hy. split.
  - apply Qle_shift_div_l; [assumption|]. lra.
  - apply Qle_shift_div_r; [assumption|]. lra.
Qed.

Lemma inject_Z_pos (z : Z) : (0 < z)%Z -> (0 < inject_Z z)%Q.
Proof. intros H. change 0%Q with (inject_Z 0). rewrite <- Zlt_Qlt. exact H. Qed.

Lemma inject_Z_nonneg (z : Z) : (0 <= z)%Z -> (0 <= inject_Z z)%Q.
Proof. intros H. change 0%Q with (inject_Z 0). rewrite <- Zle_Qle. exact H. Qed.

(** ** Strings *)

Lemma chars_nil (s : string) : chars s = [] <-> s = "".
Proof. destruct s; simpl; split; intros H; congruence. Qed.

Lemma chars_str (l : list ascii) : chars (str l) = l.
Proof. apply list_ascii_of_string_of_list_ascii. Qed.

(** ** The ratio is a number between 0 and 1 *)

Lemma ratio_total (a b : string) :
  exists q, ratio a b = Ok q
            /\ (0 <= q <= 1)%Q
            /\ (a <> b -> a = "" \/ b = "" -> q == 0)%Q.
Proof.
  unfold ratio.
  destruct (get_matching_blocks_total (chars a) (chars b))
    as (blocks & -> & H0 & Ha & Hb). simpl.
  set (m := sum_sizes blocks) in *.
  set (la := Z.of_nat (List.length (chars a))) in *.
  set (lb := Z.of_nat (List.length (chars b))) in *.
  unfold _calculate_ratio. destruct (la + lb =? 0)%Z eqn:E.
  - exists 1%Q. repeat split; try lra.
    intros Hne _. exfalso. apply Hne.
    assert (chars a = []) as Ha0 by (apply length_zero_iff_nil; lia).
    assert (chars b = []) as Hb0 by (apply length_zero_iff_nil; lia).
    apply chars_nil in Ha0, Hb0. congruence.
  - assert (Hpos : (0 < inject_Z (la + lb))%Q) by (apply inject_Z_pos; lia).
    rewrite py_div_Ok by lra. eexists. split; [reflexivity|].
    assert (Hm : (0 <= inject_Z m)%Q) by (apply inject_Z_nonneg; lia).
    assert (Hle : (2 * inject_Z m <= inject_Z (la + lb))%Q).
    { change 2%Q with (inject_Z 2). rewrite <- inject_Z_mult, <- Zle_Qle. lia. }
    split.
    + apply Qdiv_unit; lra.
    + intros _ Hempty.
      assert (m = 0%Z) as ->.
      { destruct Hempty as [-> | ->]; simpl in *; lia. }
      change (inject_Z 0) with 0%Q. unfold Qdiv.
      rewrite Qmult_0_r, Qmult_0_l. reflexivity.
Qed.

(** ** [_jaro_similarity]: counting the flags *)

Lemma count_true_nonneg (l : list bool) : (0 <= count_true l)%Z.
Proof. induction l as [|[] l IH]; simpl; lia. Qed.

Lemma count_true_length (l : list bool) :
  (count_true l <= Z.of_nat (List.length l))%Z.
Proof. induction l as [|[] l IH]; simpl; lia. Qed.

Lemma count_true_repeat (n : nat) : count_true (repeat false n) = 0%Z.
Proof. induction n as [|n IH]; simpl; [reflexivity | rewrite IH; reflexivity]. Qed.

Lemma count_true_app (l1 l2 : list bool) :
  count_true (l1 ++ l2) = (count_true l1 + count_true l2)%Z.
Proof. induction l1 as [|x l1 IH]; simpl; [reflexivity | rewrite IH; lia]. Qed.

Lemma count_true_insert (l : list bool) (j : nat) :
  l !! j = Some false ->
  count_true (<[j := true]> l) = (count_true l + 1)%Z.
Proof.
  revert j. induction l as [|x l IH]; intros [|j] H; simpl in *;
    try discriminate.
  - injection H as ->. lia.
  - rewrite IH by assumption. lia.
Qed.

Lemma count_true_take_S (l : list bool) (i : nat) (x : bool) :
  l !! i = Some x ->
  count_true (take (S i) l)
  = (count_true (take i l) + if x then 1 else 0)%Z.
Proof.
  intros H. rewrite (take_S_r _ _ _ H), count_true_app. simpl. lia.
Qed.

Lemma count_true_drop (l : list bool) (i : nat) (x : bool) :
  l !! i = Some x ->
  count_true (drop i l)
  = ((if x then 1 else 0) + count_true (drop (S i) l))%Z.
Proof. intros H. rewrite (drop_S _ _ _ H). reflexivity. Qed.

Lemma count_true_take_all (l : list bool) (n : nat) :
  List.length l <= n -> count_true (take n l) = count_true l.
Proof. intros H. rewrite take_ge by lia. reflexivity. Qed.

(** ** [_jaro_similarity]: the first loop *)

Lemma jaro_scan_window_total (s1 s2 : list ascii) (s2_matches : list bool)
    (i : Z) (js : list Z) :
  (0 <= i < Z.of_nat (List.length s1))%Z ->
  List.length s2_matches = List.length s2 ->
  (forall j, j ∈ js -> (0 <= j < Z.of_nat (List.length s2))%Z) ->
  exists found,
    jaro_scan_window s1 s2 s2_matches i js = Ok found
    /\ forall j, found = Some j ->
         (0 <= j < Z.of_nat (List.length s2))%Z
         /\ s2_matches !! Z.to_nat j = Some false
         /\ exists c, s1 !! Z.to_nat i = Some c /\ s2 !! Z.to_nat j = Some c.
Proof.
  intros Hi Hlen. induction js as [|j js IH]; intros Hjs; simpl.
  - exists None. split; [reflexivity | discriminate].
  - assert (Hj : (0 <= j < Z.of_nat (List.length s2))%Z)
      by (apply Hjs; left).
    assert (Hjs' : forall j', j' ∈ js ->
                              (0 <= j' < Z.of_nat (List.length s2))%Z)
      by (intros j' H'; apply Hjs; right; exact H').
    destruct (index_Ok s2_matches j) as (used & -> & Hused); [lia|]. simpl.
    destruct used; [apply IH; assumption|].
    destruct (index_Ok s1 i) as (c & -> & Hc); [lia|]. simpl.
    destruct (index_Ok s2 j) as (d & -> & Hd); [lia|]. simpl.
    destruct (Ascii.eqb c d) eqn:E; [|apply IH; assumption].
    apply Ascii.eqb_eq in E. subst d.
    exists (Some j). split; [reflexivity|].
    intros j' [= <-]. eauto.
Qed.

Lemma jaro_match_step_inv (s1 s2 : list ascii) (shared : Prop)
    (match_dist i : Z) (st : list bool * list bool * Z) :
  (forall c, c ∈ s1 -> c ∈ s2 -> shared) ->
  (0 <= i < Z.of_nat (List.length s1))%Z ->
  jaro_matched s1 s2 shared i st ->
  exists st', jaro_match_step s1 s2 match_dist st i = Ok st'
              /\ jaro_matched s1 s2 shared (i + 1) st'.
Proof.
  intros Hshared Hi. destruct st as [[s1m s2m] m].
  intros (Hl1 & Hl2 & Hc1 & Hc2 & Hfree & Hsh). unfold jaro_match_step.
  destruct (jaro_scan_window_total s1 s2 s2m i
              (py_range (Z.max 0 (i - match_dist))
                        (Z.min (i + match_dist + 1)
                               (Z.of_nat (List.length s2)))))
    as (found & -> & Hfound); [assumption | assumption | |].
  { intros j Hj. apply py_range_elem in Hj. lia. }
  simpl. destruct found as [j|].
  - destruct (Hfound j eq_refl) as (Hj & Hfalse & c & Hc & Hd).
    rewrite assign_Ok by lia. simpl. rewrite assign_Ok by lia. simpl.
    eexists. split; [reflexivity|]. unfold jaro_matched.
    rewrite !length_insert. repeat split; try assumption.
    + rewrite count_true_insert; [lia|].
      destruct (s1m !! Z.to_nat i) as [[]|] eqn:E.
      * exfalso. apply (Hfree (Z.to_nat i)); [lia | assumption].
      * reflexivity.
      * apply lookup_ge_None in E. lia.
    + rewrite count_true_insert by assumption. lia.
    + intros i' Hi'. rewrite list_lookup_insert_ne by lia. apply Hfree. lia.
    + intros _. apply (Hshared c).
      * apply list_elem_of_lookup. eauto.
      * apply list_elem_of_lookup. eauto.
  - eexists. split; [reflexivity|]. unfold jaro_matched.
    repeat split; try assumption. intros i' Hi'. apply Hfree. lia.
Qed.

(** ** [_jaro_similarity]: the second loop *)

Lemma jaro_skip_unmatched_total (rest : list bool) (k : Z) :
  (0 < count_true rest)%Z ->
  exists n : nat,
    jaro_skip_unmatched rest k = Ok (k + Z.of_nat n)%Z
    /\ rest !! n = Some true
    /\ count_true (drop (S n) rest) = (count_true rest - 1)%Z.
Proof.
  revert k. induction rest as [|x rest IH]; intros k H; simpl in *.
  - lia.
  - destruct x.
    + exists O. split; [f_equal; lia|]. split; [reflexivity|]. rewrite drop_0. lia.
    + destruct (IH (k + 1)%Z) as (n & -> & Hn & Hc); [lia|].
      exists (S n). split; [f_equal; lia|]. split; [assumption|]. lia.
Qed.

Lemma jaro_transposition_step_inv (s1 s2 : list ascii)
    (s1_matches s2_matches : list bool) (i : Z) (st : Z * Z) :
  List.length s1_matches = List.length s1 ->
  List.length s2_matches = List.length s2 ->
  (0 <= i < Z.of_nat (List.length s1))%Z ->
  jaro_walked s1_matches s2_matches i st ->
  exists st', jaro_transposition_step s1 s2 s1_matches s2_matches st i = Ok st'
              /\ jaro_walked s1_matches s2_matches (i + 1) st'.
Proof.
  intros Hl1 Hl2 Hi. destruct st as [t k]. intros (Hk & Ht & Hcount).
  unfold jaro_transposition_step.
  destruct (index_Ok s1_matches i) as (m & -> & Hm); [lia|]. simpl.
  assert (Hi1 : Z.to_nat (i + 1) = S (Z.to_nat i)) by lia.
  rewrite (count_true_drop _ _ _ Hm) in Hcount.
  destruct m.
  - destruct (jaro_skip_unmatched_total (drop (Z.to_nat k) s2_matches) k)
      as (n & -> & Hn & Hc).
    { pose proof (count_true_nonneg (drop (S (Z.to_nat i)) s1_matches)). lia. }
    simpl. rewrite lookup_drop in Hn. rewrite drop_drop in Hc.
    assert (Hlt : Z.to_nat k + n < List.length s2_matches)
      by (apply lookup_lt_is_Some; eauto).
    destruct (index_Ok s1 i) as (c & -> & _); [lia|]. simpl.
    destruct (index_Ok s2 (k + Z.of_nat n)) as (d & -> & _); [lia|]. simpl.
    eexists. split; [reflexivity|]. unfold jaro_walked.
    rewrite Hi1, (count_true_take_S _ _ _ Hm).
    replace (Z.to_nat (k + Z.of_nat n + 1)) with (Z.to_nat k + S n)%nat by lia.
    repeat split; try lia; destruct (Ascii.eqb c d); lia.
  - eexists. split; [reflexivity|]. unfold jaro_walked.
    rewrite Hi1, (count_true_take_S _ _ _ Hm). repeat split; lia.
Qed.

(** ** [_jaro_similarity] returns a number between 0 and 1 *)

Lemma jaro_total (s1 s2 : string) :
  exists q,
    _jaro_similarity s1 s2 = Ok q
    /\ (0 <= q <= 1)%Q
    /\ (s1 <> s2 ->
        (forall c, c ∈ chars s1 -> c ∈ chars s2 -> False) -> q = 0%Q).
Proof.
  unfold _jaro_similarity. destruct (String.eqb s1 s2) eqn:E.
  { exists 1%Q. split; [reflexivity|]. split; [lra|].
    intros Hne. apply String.eqb_eq in E. contradiction. }
  set (a := chars s1). set (b := chars s2).
  set (len1 := Z.of_nat (List.length a)).
  set (len2 := Z.of_nat (List.length b)).
  destruct ((len1 =? 0)%Z || (len2 =? 0)%Z) eqn:E0.
  { exists 0%Q. split; [reflexivity|]. split; [lra | reflexivity]. }
  apply orb_false_iff in E0 as [E1 E2].
  set (shared := exists c, c ∈ a /\ c ∈ b).
  destruct (for_each_range (jaro_matched a b shared)
              (jaro_match_step a b (Z.max len1 len2 / 2 - 1)) 0 len1
              (repeat false (List.length a), repeat false (List.length b), 0%Z))
    as ([[s1m s2m] m] & -> & Hl1 & Hl2 & Hc1 & Hc2 & _ & Hsh).
  { lia. }
  { unfold jaro_matched. rewrite !repeat_length, !count_true_repeat.
    repeat split; try lia.
    intros i' _ H. apply list_elem_of_lookup_2, list_elem_of_In in H.
    apply repeat_spec in H. discriminate. }
  { intros i st Hi. apply jaro_match_step_inv; [|exact Hi].
    intros c H1 H2. exists c. auto. }
  simpl. destruct (m =? 0)%Z eqn:Em.
  { exists 0%Q. split; [reflexivity|]. split; [lra | reflexivity]. }
  destruct (for_each_range (jaro_walked s1m s2m)
              (jaro_transposition_step a b s1m s2m) 0 len1 (0%Z, 0%Z))
    as ([t k] & -> & _ & Ht & _).
  { lia. }
  { unfold jaro_walked. simpl. rewrite !drop_0. repeat split; lia. }
  { intros i st Hi. apply jaro_transposition_step_inv; assumption. }
  simpl.
  assert (Hm1 : (m <= len1)%Z).
  { pose proof (count_true_length s1m). unfold len1. lia. }
  assert (Hm2 : (m <= len2)%Z).
  { pose proof (count_true_length s2m). unfold len2. lia. }
  assert (Hm0 : (0 < m)%Z).
  { pose proof (count_true_nonneg s1m). lia. }
  assert (Htm : (0 <= t <= m)%Z).
  { rewrite count_true_take_all in Ht by (unfold len1; lia). lia. }
  assert (Q1 : (0 < inject_Z len1)%Q) by (apply inject_Z_pos; lia).
  assert (Q2 : (0 < inject_Z len2)%Q) by (apply inject_Z_pos; lia).
  assert (Qm : (0 < inject_Z m)%Q) by (apply inject_Z_pos; lia).
  assert (Qm1 : (inject_Z m <= inject_Z len1)%Q) by (rewrite <- Zle_Qle; lia).
  assert (Qm2 : (inject_Z m <= inject_Z len2)%Q) by (rewrite <- Zle_Qle; lia).
  assert (Qt0 : (0 <= inject_Z t)%Q) by (apply inject_Z_nonneg; lia).
  assert (Qtm : (inject_Z t <= inject_Z m)%Q) by (rewrite <- Zle_Qle; lia).
  rewrite !py_div_Ok by lra. simpl.
  eexists. split; [reflexivity|]. split.
  - assert (Hhalf : (inject_Z t / 2 == inject_Z t * (1 # 2))%Q)
      by (unfold Qdiv; reflexivity).
    set (x := (inject_Z m / inject_Z len1)%Q).
    set (y := (inject_Z m / inject_Z len2)%Q).
    set (z := ((inject_Z m - inject_Z t / 2) / inject_Z m)%Q).
    assert (Hthird : ((x + y + z) / 3 == (x + y + z) * (1 # 3))%Q)
      by (unfold Qdiv; reflexivity).
    subst x y z.
    pose proof (Qdiv_unit (inject_Z m) (inject_Z len1)) as X.
    pose proof (Qdiv_unit (inject_Z m) (inject_Z len2)) as Y.
    pose proof (Qdiv_unit (inject_Z m - inject_Z t / 2) (inject_Z m)) as Z.
    specialize (X ltac:(lra) ltac:(lra) ltac:(lra)).
    specialize (Y ltac:(lra) ltac:(lra) ltac:(lra)).
    specialize (Z ltac:(lra) ltac:(lra) ltac:(lra)).
    lra.
  - intros _ Hdisj. exfalso. destruct (Hsh Hm0) as (c & H1 & H2).
    exact (Hdisj c H1 H2).
Qed.

(** ** [calculate_similarity_score] returns a number between 0 and 1 *)

Lemma lower_empty (s : string) : lower s = "" <-> s = "".
Proof. destruct s; simpl; split; intros H; congruence. Qed.

Lemma length_zero_empty (s : string) : String.length s = O -> s = "".
Proof. destruct s; simpl; [reflexivity | discriminate]. Qed.

Lemma calculate_similarity_score_total (w1 w2 : string) :
  exists q, calculate_similarity_score w1 w2 = Ok q /\ (0 <= q <= 1)%Q.
Proof.
  unfold calculate_similarity_score.
  destruct (String.eqb (lower w1) (lower w2)) eqn:E.
  { exists 1%Q. split; [reflexivity | lra]. }
  apply String.eqb_neq in E.
  destruct (ratio_total (lower w1) (lower w2)) as (s & -> & Hs & _).
  destruct (ratio_total (normalize_phonetic w1) (normalize_phonetic w2))
    as (p & -> & Hp & _).
  cbn [bind]. unfold len.
  assert (Hmax : (0 < Z.max (Z.of_nat (String.length w1))
                          (Z.of_nat (String.length w2)))%Z).
  { destruct (String.length w1) eqn:L1; [|lia].
    destruct (String.length w2) eqn:L2; [|lia].
    apply length_zero_empty in L1, L2. subst. contradiction. }
  set (l1 := Z.of_nat (String.length w1)) in *.
  set (l2 := Z.of_nat (String.length w2)) in *.
  assert (Qmax : (0 < inject_Z (Z.max l1 l2))%Q) by (apply inject_Z_pos; lia).
  rewrite py_div_Ok by lra. cbn [bind].
  destruct (jaro_total (lower w1) (lower w2)) as (j & -> & Hj & _).
  cbn [bind].
  eexists. split; [reflexivity|].
  pose proof (Qdiv_unit (inject_Z (Z.abs (l1 - l2))) (inject_Z (Z.max l1 l2)))
    as L.
  assert (L0 : (0 <= inject_Z (Z.abs (l1 - l2)))%Q)
    by (apply inject_Z_nonneg; lia).
  assert (L1 : (inject_Z (Z.abs (l1 - l2)) <= inject_Z (Z.max l1 l2))%Q)
    by (rewrite <- Zle_Qle; subst l1 l2; lia).
  specialize (L L0 L1 Qmax). lra.
Qed.

(** ** [normalize_phonetic] keeps a token that is not empty not empty *)

Lemma str_nil (l : list ascii) : str l = "" <-> l = [].
Proof. destruct l; simpl; split; intros H; congruence. Qed.

Lemma replace_nonempty (old new s : string) :
  new <> "" -> s <> "" -> replace old new s <> "".
Proof.
  intros Hnew Hs. unfold replace.
  assert (Hn : chars new <> []) by (rewrite chars_nil; exact Hnew).
  assert (Hc : chars s <> []) by (rewrite chars_nil; exact Hs).
  destruct (chars old) as [|o old'].
  - rewrite str_nil. destruct (chars new); [congruence | discriminate].
  - rewrite str_nil. destruct (chars s) as [|c s']; [congruence|].
    simpl. destruct (Ascii.eqb o c && starts_with old' s').
    + destruct (chars new); [congruence | discriminate].
    + discriminate.
Qed.

Lemma phonetic_map_nonempty :
  Forall (fun p : string * string => p.2 <> "") _create_phonetic_map.
Proof.
  unfold _create_phonetic_map. apply Forall_app. split.
  - repeat constructor; discriminate.
  - apply Forall_forall. intros p Hp.
    apply list_elem_of_In, in_map_iff in Hp as (c & <- & _). discriminate.
Qed.

Lemma replace_all_nonempty (m : list (string * string)) (w : string) :
  Forall (fun p : string * string => p.2 <> "") m ->
  w <> "" ->
  fold_left (fun w '(variant, standard) => replace variant standard w) m w
  <> "".
Proof.
  intros Hm. revert w. induction Hm as [|[variant standard] m H _ IH];
    intros w Hw; simpl.
  - exact Hw.
  - apply IH. apply replace_nonempty; assumption.
Qed.

Lemma re_sub_run_nonempty (cls : ascii -> bool) (n keep : nat)
    (s : list ascii) :
  s <> [] -> re_sub_run cls n (S keep) None s <> [].
Proof.
  destruct s as [|c s]; [congruence|]. intros _. simpl.
  destruct (cls c && starts_with (repeat c n) s); discriminate.
Qed.

Lemma normalize_phonetic_nonempty (w : string) :
  w <> "" -> normalize_phonetic w <> "".
Proof.
  intros Hw. unfold normalize_phonetic.
  rewrite str_nil. apply re_sub_run_nonempty.
  rewrite chars_str. apply re_sub_run_nonempty.
  rewrite chars_nil. apply replace_all_nonempty.
  - exact phonetic_map_nonempty.
  - rewrite lower_empty. exact Hw.
Qed.

(** ** The score of an empty token against one that is not empty *)

Lemma calculate_similarity_score_empty (w1 w2 : string) :
  w1 <> w2 -> w1 = "" \/ w2 = "" ->
  exists q, calculate_similarity_score w1 w2 = Ok q /\ (q == 0)%Q.
Proof.
  intros Hne Hempty.
  assert (Hlow : lower w1 <> lower w2 /\ (lower w1 = "" \/ lower w2 = "")).
  { destruct Hempty as [-> | ->]; simpl; (split; [|auto]); intros H.
    - symmetry in H. rewrite lower_empty in H. congruence.
    - rewrite lower_empty in H. congruence. }
  assert (Hnorm : normalize_phonetic w1 <> normalize_phonetic w2
                  /\ (normalize_phonetic w1 = ""
                      \/ normalize_phonetic w2 = "")).
  { destruct Hempty as [-> | ->]; change (normalize_phonetic "") with "";
      (split; [|auto]); intros H.
    - symmetry in H. revert H. apply normalize_phonetic_nonempty. congruence.
    - revert H. apply normalize_phonetic_nonempty. congruence. }
  assert (Hlen : (Z.abs (len w1 - len w2) = Z.max (len w1) (len w2)
                  /\ 0 < Z.max (len w1) (len w2))%Z).
  { unfold len. destruct Hempty as [-> | ->]; simpl.
    - destruct w2; [congruence|]. simpl. lia.
    - destruct w1; [congruence|]. simpl. lia. }
  assert (Hdisj : forall c, c ∈ chars (lower w1) -> c ∈ chars (lower w2)
                            -> False).
  { intros c H1 H2. destruct Hlow as [_ [E | E]]; rewrite E in *; simpl in *.
    - inversion H1.
    - inversion H2. }
  destruct Hlow as [Hlow1 Hlow2]. destruct Hnorm as [Hnorm1 Hnorm2].
  destruct Hlen as [Hlen1 Hlen2].
  unfold calculate_similarity_score.
  destruct (String.eqb (lower w1) (lower w2)) eqn:E.
  { apply String.eqb_eq in E. contradiction. }
  destruct (ratio_total (lower w1) (lower w2)) as (s & -> & _ & Hs).
  destruct (ratio_total (normalize_phonetic w1) (normalize_phonetic w2))
    as (p & -> & _ & Hp).
  cbn [bind]. rewrite Hlen1.
  assert (Qmax : (0 < inject_Z (Z.max (len w1) (len w2)))%Q)
    by (apply inject_Z_pos; lia).
  rewrite py_div_Ok by lra. cbn [bind].
  destruct (jaro_total (lower w1) (lower w2)) as (j & -> & _ & Hj).
  cbn [bind]. eexists. split; [reflexivity|].
  rewrite (Hs Hlow1 Hlow2), (Hp Hnorm1 Hnorm2), (Hj Hlow1 Hdisj).
  assert (D : (inject_Z (Z.max (len w1) (len w2))
               / inject_Z (Z.max (len w1) (len w2)) == 1)%Q)
    by (unfold Qdiv; apply Qmult_inv_r; lra).
  rewrite D. reflexivity.
Qed.

(** ** The scan of [find_best_match] *)

Lemma score_of_Ok (w1 w2 : string) :
  calculate_similarity_score w1 w2 = Ok (score_of w1 w2).
Proof.
  unfold score_of.
  destruct (calculate_similarity_score_total w1 w2) as (q & -> & _).
  reflexivity.
Qed.

Lemma score_of_range (w1 w2 : string) : (0 <= score_of w1 w2 <= 1)%Q.
Proof.
  unfold score_of.
  destruct (calculate_similarity_score_total w1 w2) as (q & -> & H).
  exact H.
Qed.

Lemma Qlt_bool_iff (x y : Q) : Qlt_bool x y = true <-> (x < y)%Q.
Proof.
  unfold Qlt_bool. rewrite negb_true_iff. split.
  - intros H. apply Qnot_le_lt. intros Hle.
    apply Qle_bool_iff in Hle. congruence.
  - intros H. destruct (Qle_bool y x) eqn:E; [|reflexivity].
    apply Qle_bool_iff in E. lra.
Qed.

(** The turn of the scan on a candidate [ref], in terms of its score. *)
Lemma find_best_match_step_score (q : string) (thr : Q) (best : string)
    (best_score : Q) (ref : string) :
  find_best_match_step calculate_similarity_score q thr (best, best_score) ref
  = Ok (if Qle_bool thr (score_of q ref) && Qlt_bool best_score (score_of q ref)
        then (ref, score_of q ref) else (best, best_score)).
Proof.
  unfold find_best_match_step. rewrite score_of_Ok. cbn [bind].
  destruct (Qle_bool thr (score_of q ref)
            && Qlt_bool best_score (score_of q ref)); reflexivity.
Qed.

(** The scan ends without an exception.  Either no candidate replaced the
    best on entry, and then none had a score that is both at least the
    threshold and over the score on entry; or the scan ends on a candidate
    [b] whose score the earlier candidates do not reach and the later ones
    do not pass. *)
Lemma find_best_match_scan (q : string) (thr : Q) (l : list string) :
  forall (b0 : string) (s0 : Q),
  exists (b : string) (s : Q),
    for_each l (find_best_match_step calculate_similarity_score q thr) (b0, s0)
    = Ok (b, s)
    /\ ((b = b0 /\ s = s0
         /\ forall r, r ∈ l ->
                      ~ (thr <= score_of q r /\ s0 < score_of q r)%Q)
        \/ (exists l1 l2,
               l = l1 ++ b :: l2
               /\ s = score_of q b
               /\ (thr <= s)%Q /\ (s0 < s)%Q
               /\ (forall r, r ∈ l1 -> (score_of q r < s)%Q)
               /\ (forall r, r ∈ l2 -> (score_of q r <= s)%Q))).
Proof.
  induction l as [|r l IH]; intros b0 s0.
  - exists b0, s0. split; [reflexivity|]. left. repeat split.
    intros r Hr. inversion Hr.
  - cbn [for_each]. rewrite find_best_match_step_score. cbn [bind].
    destruct (Qle_bool thr (score_of q r) && Qlt_bool s0 (score_of q r))
      eqn:E.
    + apply andb_true_iff in E as [E1 E2].
      apply Qle_bool_iff in E1. apply Qlt_bool_iff in E2.
      destruct (IH r (score_of q r)) as (b & s & -> & H).
      exists b, s. split; [reflexivity|]. right.
      destruct H as [(-> & -> & Hrest) | (l1 & l2 & -> & -> & H1 & H2 & H3 & H4)].
      * exists [], l. repeat split; try assumption.
        -- intros r' Hr'. inversion Hr'.
        -- intros r' Hr'. apply Qnot_lt_le. intros Hlt.
           apply (Hrest r' Hr'). split; lra.
      * exists (r :: l1), l2. repeat split; try assumption; try lra.
        intros r' Hr'. apply elem_of_cons in Hr' as [-> | Hr']; auto.
    + apply andb_false_iff in E.
      assert (E' : ~ (thr <= score_of q r /\ s0 < score_of q r)%Q).
      { intros [E1 E2]. apply Qle_bool_iff in E1. apply Qlt_bool_iff in E2.
        destruct E; congruence. }
      destruct (IH b0 s0) as (b & s & -> & H).
      exists b, s. split; [reflexivity|].
      destruct H as [(-> & -> & Hrest) | (l1 & l2 & -> & -> & H1 & H2 & H3 & H4)].
      * left. repeat split. intros r' Hr'.
        apply elem_of_cons in Hr' as [-> | Hr']; auto.
      * right. exists (r :: l1), l2. repeat split; try assumption.
        intros r' Hr'. apply elem_of_cons in Hr' as [-> | Hr']; auto.
        apply Qnot_le_lt. intros Hle. apply E'. split; lra.
Qed.

(** ** The reference dictionary *)

Lemma load_snoc (lines : list string) (line : string) :
  load_reference_dictionary (lines ++ [line])
  = load_line (load_reference_dictionary lines) line.
Proof. unfold load_reference_dictionary. rewrite fold_left_app. reflexivity. Qed.

Lemma load_line_inv (c : NonEnglishSpellCorrector) (line : string) :
  dictionary_inv c -> dictionary_inv (load_line c line).
Proof.
  intros (Hw & Hv & Hnd). unfold load_line.
  destruct (String.eqb (strip line) "") eqn:E;
    [exact (conj Hw (conj Hv Hnd))|].
  apply String.eqb_neq in E. set (word := strip line) in *.
  assert (Hin : forall w,
             w ∈ (if bool_decide (word ∈ reference_words c)
                  then reference_words c else reference_words c ++ [word])
             <-> w ∈ reference_words c \/ w = word).
  { intros w. case_bool_decide as Hd.
    - split; [auto | intros [H | ->]; assumption].
    - rewrite elem_of_app, list_elem_of_singleton. reflexivity. }
  split; [|split]; simpl.
  - intros w Hw'. apply Hin in Hw' as [Hw' | ->].
    + destruct (Hw w Hw') as [H1 H2]. split; [exact H1|].
      rewrite lookup_insert.
      destruct (decide (lower word = lower w)); [eauto | exact H2].
    + split; [exact E|]. rewrite lookup_insert_eq. eauto.
  - intros k l. rewrite lookup_insert.
    destruct (decide (lower word = k)) as [Hk | Hk].
    + intros [= <-]. split.
      * destruct (default [] (word_variants c !! lower word)); discriminate.
      * intros w Hw'. rewrite Hin. apply elem_of_app in Hw' as [Hw' | Hw'].
        -- destruct (word_variants c !! lower word) as [l'|] eqn:El;
             simpl in Hw'; [|inversion Hw'].
           destruct (Hv _ _ El) as [_ H]. destruct (H w Hw') as [H1 H2].
           split; [congruence | auto].
        -- apply list_elem_of_singleton in Hw' as ->. split; [congruence|auto].
    + intros Hl. destruct (Hv _ _ Hl) as [H1 H2]. split; [exact H1|].
      intros w Hw'. rewrite Hin. destruct (H2 w Hw'). auto.
  - case_bool_decide as Hd; [exact Hnd|].
    apply NoDup_app. repeat split; [exact Hnd | | apply NoDup_singleton].
    intros w H1 H2. apply list_elem_of_singleton in H2 as ->. contradiction.
Qed.

Lemma load_reference_dictionary_inv (lines : list string) :
  dictionary_inv (load_reference_dictionary lines).
Proof.
  induction lines as [|line lines IH] using rev_ind.
  - split; [|split]; simpl.
    + intros w H. inversion H.
    + intros k l H. rewrite lookup_empty in H. discriminate.
    + constructor.
  - rewrite load_snoc. apply load_line_inv. exact IH.
Qed.

(** The list under a key holds the words of the file with that lowercase
    form, in the order of the file; so its first element is the first such
    word of the file. *)
Lemma load_variants (lines : list string) (k : string) :
  word_variants (load_reference_dictionary lines) !! k
  = match filter (fun w => lower w = k) (words_of lines) with
    | [] => None
    | l => Some l
    end.
Proof.
  induction lines as [|line lines IH] using rev_ind.
  - reflexivity.
  - rewrite load_snoc. unfold load_line, words_of.
    rewrite map_app, filter_app, filter_app. simpl map.
    fold (words_of lines).
    destruct (String.eqb (strip line) "") eqn:E.
    + apply String.eqb_eq in E. rewrite E.
      rewrite (filter_cons_False (fun w => w <> "")) by congruence.
      rewrite filter_nil, filter_nil, app_nil_r. exact IH.
    + apply String.eqb_neq in E.
      rewrite (filter_cons_True (fun w => w <> "")) by exact E.
      rewrite filter_nil. simpl word_variants.
      rewrite lookup_insert.
      destruct (decide (lower (strip line) = k)) as [Hk | Hk].
      * rewrite filter_cons_True by exact Hk. rewrite filter_nil.
        subst k. rewrite IH.
        destruct (filter (fun w => lower w = lower (strip line))
                         (words_of lines)); reflexivity.
      * rewrite filter_cons_False by exact Hk. rewrite filter_nil, app_nil_r.
        exact IH.
Qed.

(** ** Two lists split at an element each *)

Lemma app_cons_align {A : Type} (m1 m2 l1 l2 : list A) (b c : A) :
  m1 ++ b :: m2 = l1 ++ c :: l2 ->
  (exists t, l1 = m1 ++ b :: t)
  \/ (m1 = l1 /\ b = c)
  \/ (exists t, m1 = l1 ++ c :: t).
Proof.
  revert l1. induction m1 as [|x m1 IH]; intros [|y l1] H; simpl in *.
  - injection H as -> _. right. left. auto.
  - injection H as -> _. left. eauto.
  - injection H as -> _. right. right. eauto.
  - injection H as -> H.
    destruct (IH l1 H) as [(t & ->) | [(-> & ->) | (t & ->)]]; eauto.
Qed.

(** ** [find_best_match] when no key of the dictionary is hit *)

(** Without an exact hit the search ends without an exception, either on the
    query itself, no candidate having a score that is both at least the
    threshold and positive, or on the first of the candidates with the
    highest score, which is then at least the threshold and positive. *)
Lemma find_best_match_cases (c : NonEnglishSpellCorrector) (q : string)
    (thr : Q) :
  word_variants c !! lower q = None ->
  (find_best_match c q thr = Ok q
   /\ forall r, r ∈ reference_words c ->
                ~ (thr <= score_of q r /\ 0 < score_of q r)%Q)
  \/ (exists b l1 l2,
         find_best_match c q thr = Ok b
         /\ reference_words c = l1 ++ b :: l2
         /\ (thr <= score_of q b)%Q /\ (0 < score_of q b)%Q
         /\ (forall r, r ∈ l1 -> (score_of q r < score_of q b)%Q)
         /\ (forall r, r ∈ l2 -> (score_of q r <= score_of q b)%Q)).
Proof.
  intros Hnone. unfold find_best_match, find_best_match_with. rewrite Hnone.
  destruct (find_best_match_scan q thr (reference_words c) q 0%Q)
    as (b & s & -> & H). cbn [bind fst].
  destruct H as [(-> & -> & Hrest) | (l1 & l2 & Hl & -> & H1 & H2 & H3 & H4)].
  - left. split; [reflexivity | exact Hrest].
  - right. exists b, l1, l2. repeat split; assumption.
Qed.

Lemma find_best_match_below (c : NonEnglishSpellCorrector) (q : string)
    (thr : Q) :
  word_variants c !! lower q = None ->
  (forall r, r ∈ reference_words c -> (score_of q r < thr)%Q) ->
  find_best_match c q thr = Ok q.
Proof.
  intros Hnone Hbelow.
  destruct (find_best_match_cases c q thr Hnone)
    as [[H _] | (b & l1 & l2 & _ & Hl & H1 & _)]; [exact H|].
  exfalso. assert (Hb : b ∈ reference_words c).
  { rewrite Hl. apply elem_of_app. right. left. }
  specialize (Hbelow b Hb). lra.
Qed.

(** ** The scan with any scorer *)

(** The same two lemmas for every function in the scorer's place, the
    binary64 scorer among them: [sc r] is the number the scorer returns for
    the candidate [r]. *)
Lemma find_best_match_step_with (score : string -> string -> result Q)
    (q : string) (thr : Q) (best : string) (best_score : Q) (ref : string)
    (s : Q) :
  score q ref = Ok s ->
  find_best_match_step score q thr (best, best_score) ref
  = Ok (if Qle_bool thr s && Qlt_bool best_score s
        then (ref, s) else (best, best_score)).
Proof.
  intros H. unfold find_best_match_step. rewrite H. cbn [bind].
  destruct (Qle_bool thr s && Qlt_bool best_score s); reflexivity.
Qed.

Lemma find_best_match_scan_with (score : string -> string -> result Q)
    (sc : string -> Q) (q : string) (thr : Q) (l : list string) :
  (forall r, r ∈ l -> score q r = Ok (sc r)) ->
  forall (b0 : string) (s0 : Q),
  exists (b : string) (s : Q),
    for_each l (find_best_match_step score q thr) (b0, s0) = Ok (b, s)
    /\ ((b = b0 /\ s = s0
         /\ forall r, r ∈ l -> ~ (thr <= sc r /\ s0 < sc r)%Q)
        \/ (exists l1 l2,
               l = l1 ++ b :: l2
               /\ s = sc b
               /\ (thr <= s)%Q /\ (s0 < s)%Q
               /\ (forall r, r ∈ l1 -> (sc r < s)%Q)
               /\ (forall r, r ∈ l2 -> (sc r <= s)%Q))).
Proof.
  induction l as [|r l IH]; intros Hsc b0 s0.
  - exists b0, s0. split; [reflexivity|]. left. repeat split.
    intros r Hr. inversion Hr.
  - assert (Hl : forall x, x ∈ l -> score q x = Ok (sc x))
      by (intros x Hx; apply Hsc; right; exact Hx).
    specialize (IH Hl).
    cbn [for_each].
    rewrite (find_best_match_step_with score q thr b0 s0 r (sc r))
      by (apply Hsc; left).
    cbn [bind].
    destruct (Qle_bool thr (sc r) && Qlt_bool s0 (sc r)) eqn:E.
    + apply andb_true_iff in E as [E1 E2].
      apply Qle_bool_iff in E1. apply Qlt_bool_iff in E2.
      destruct (IH r (sc r)) as (b & s & -> & H).
      exists b, s. split; [reflexivity|]. right.
      destruct H as [(-> & -> & Hrest) | (l1 & l2 & -> & -> & H1 & H2 & H3 & H4)].
      * exists [], l. repeat split; try assumption.
        -- intros r' Hr'. inversion Hr'.
        -- intros r' Hr'. apply Qnot_lt_le. intros Hlt.
           apply (Hrest r' Hr'). split; lra.
      * exists (r :: l1), l2. repeat split; try assumption; try lra.
        intros r' Hr'. apply elem_of_cons in Hr' as [-> | Hr']; auto.
    + apply andb_false_iff in E.
      assert (E' : ~ (thr <= sc r /\ s0 < sc r)%Q).
      { intros [E1 E2]. apply Qle_bool_iff in E1. apply Qlt_bool_iff in E2.
        destruct E; congruence. }
      destruct (IH b0 s0) as (b & s & -> & H).
      exists b, s. split; [reflexivity|].
      destruct H as [(-> & -> & Hrest) | (l1 & l2 & -> & -> & H1 & H2 & H3 & H4)].
      * left. repeat split. intros r' Hr'.
        apply elem_of_cons in Hr' as [-> | Hr']; auto.
      * right. exists (r :: l1), l2. repeat split; try assumption.
        intros r' Hr'. apply elem_of_cons in Hr' as [-> | Hr']; auto.
        apply Qnot_le_lt. intros Hle. apply E'. split; lra.
Qed.

Lemma find_best_match_with_cases (score : string -> string -> result Q)
    (sc : string -> Q) (c : NonEnglishSpellCorrector) (q : string)
    (thr : Q) :
  word_variants c !! lower q = None ->
  (forall r, r ∈ reference_words c -> score q r = Ok (sc r)) ->
  (find_best_match_with score c q thr = Ok q
   /\ forall r, r ∈ reference_words c -> ~ (thr <= sc r /\ 0 < sc r)%Q)
  \/ (exists b l1 l2,
         find_best_match_with score c q thr = Ok b
         /\ reference_words c = l1 ++ b :: l2
         /\ (thr <= sc b)%Q /\ (0 < sc b)%Q
         /\ (forall r, r ∈ l1 -> (sc r < sc b)%Q)
         /\ (forall r, r ∈ l2 -> (sc r <= sc b)%Q)).
Proof.
  intros Hnone Hsc. unfold find_best_match_with. rewrite Hnone.
  destruct (find_best_match_scan_with score sc q thr (reference_words c)
              Hsc q 0%Q) as (b & s & -> & H). cbn [bind fst].
  destruct H as [(-> & -> & Hrest) | (l1 & l2 & Hl & -> & H1 & H2 & H3 & H4)].
  - left. split; [reflexivity | exact Hrest].
  - right. exists b, l1, l2. repeat split; assumption.
Qed.

(** No candidate takes the place of the best so far when the scorer returns
    a score below the threshold for each. *)
Lemma find_best_match_scan_below (score : string -> string -> result Q)
    (q : string) (thr : Q) (l : list string) (st : string * Q) :
  (forall r, r ∈ l -> exists s, score q r = Ok s /\ (s < thr)%Q) ->
  for_each l (find_best_match_step score q thr) st = Ok st.
Proof.
  induction l as [|r l IH]; intros H; [reflexivity|].
  cbn [for_each]. destruct st as [best best_score].
  destruct (H r) as (s & Hr & Hs); [left|].
  rewrite (find_best_match_step_with score q thr best best_score r s Hr).
  assert (E : Qle_bool thr s = false).
  { destruct (Qle_bool thr s) eqn:E; [|reflexivity].
    apply Qle_bool_iff in E. lra. }
  rewrite E. cbn [andb bind]. apply IH.
  intros x Hx. apply H. right. exact Hx.
Qed.

Lemma find_best_match_with_below (score : string -> string -> result Q)
    (c : NonEnglishSpellCorrector) (q : string) (thr : Q) :
  word_variants c !! lower q = None ->
  (forall r, r ∈ reference_words c ->
             exists s, score q r = Ok s /\ (s < thr)%Q) ->
  find_best_match_with score c q thr = Ok q.
Proof.
  intros Hnone H. unfold find_best_match_with. rewrite Hnone.
  rewrite (find_best_match_scan_below score q thr (reference_words c)
             (q, 0%Q) H).
  reflexivity.
Qed.

Lemma score_with_Ok (score : string -> string -> result Q) (q : string)
    (l : list string) :
  (forall r, r ∈ l -> exists s, score q r = Ok s) ->
  forall r, r ∈ l -> score q r = Ok (score_with score q r).
Proof.
  intros H r Hr. unfold score_with. destruct (H r Hr) as (s & ->).
  reflexivity.
Qed.

(** With a dictionary as [load_reference_dictionary] builds it and a scorer
    that raises nothing, the search ends without an exception, on the query
    or on a word of the dictionary. *)
Lemma find_best_match_with_dictionary (score : string -> string -> result Q)
    (c : NonEnglishSpellCorrector) (q : string) (thr : Q) :
  (forall w1 w2, exists s, score w1 w2 = Ok s) ->
  dictionary_inv c ->
  exists r,
    find_best_match_with score c q thr = Ok r
    /\ (r = q \/ r ∈ reference_words c).
Proof.
  intros Hscore (_ & Hv & _).
  destruct (word_variants c !! lower q) as [l|] eqn:E.
  - destruct (Hv _ _ E) as [Hl Hin].
    destruct l as [|w rest]; [congruence|].
    destruct (Hin w) as [H1 H2]; [left|].
    exists w. unfold find_best_match_with.
    rewrite E. split; [reflexivity | right; exact H2].
  - destruct (find_best_match_with_cases score (score_with score q) c q thr E)
      as [[H _] | (b & l1 & l2 & H & Hl & _)].
    + apply score_with_Ok. intros x _. apply Hscore.
    + exists q. split; [exact H | left; reflexivity].
    + exists b. split; [exact H|].
      right. rewrite Hl. apply elem_of_app. right. left.
Qed.


(** ** The binary64 scorer raises nothing *)

Lemma float_div_int_Ok (x : float) (n : Z) :
  n <> 0%Z -> exists y, float_div_int x n = Ok y.
Proof.
  intros H. unfold float_div_int.
  destruct (n =? 0)%Z eqn:E; [apply Z.eqb_eq in E; contradiction|].
  eexists. reflexivity.
Qed.

Lemma ratio_binary64_total (a b : string) :
  exists x, ratio_binary64 a b = Ok x.
Proof.
  unfold ratio_binary64.
  destruct (get_matching_blocks_total (chars a) (chars b))
    as (blocks & -> & _). cbn [bind].
  unfold _calculate_ratio_binary64.
  destruct (Z.of_nat (List.length (chars a))
            + Z.of_nat (List.length (chars b)) =? 0)%Z eqn:E.
  - eexists. reflexivity.
  - apply float_div_int_Ok. apply Z.eqb_neq. exact E.
Qed.

Lemma jaro_binary64_total (s1 s2 : string) :
  exists x, _jaro_similarity_binary64 s1 s2 = Ok x.
Proof.
  unfold _jaro_similarity_binary64. destruct (String.eqb s1 s2) eqn:E.
  { eexists. reflexivity. }
  set (a := chars s1). set (b := chars s2).
  set (len1 := Z.of_nat (List.length a)).
  set (len2 := Z.of_nat (List.length b)).
  destruct ((len1 =? 0)%Z || (len2 =? 0)%Z) eqn:E0.
  { eexists. reflexivity. }
  apply orb_false_iff in E0 as [E1 E2].
  apply Z.eqb_neq in E1, E2.
  destruct (for_each_range (jaro_matched a b True)
              (jaro_match_step a b (Z.max len1 len2 / 2 - 1)) 0 len1
              (repeat false (List.length a), repeat false (List.length b), 0%Z))
    as ([[s1m s2m] m] & -> & Hl1 & Hl2 & Hc1 & Hc2 & _).
  { lia. }
  { unfold jaro_matched. rewrite !repeat_length, !count_true_repeat.
    repeat split; try lia.
    intros i' _ H. apply list_elem_of_lookup_2, list_elem_of_In in H.
    apply repeat_spec in H. discriminate. }
  { intros i st Hi. apply jaro_match_step_inv; [|exact Hi]. auto. }
  cbn [bind]. destruct (m =? 0)%Z eqn:Em.
  { eexists. reflexivity. }
  apply Z.eqb_neq in Em.
  destruct (for_each_range (jaro_walked s1m s2m)
              (jaro_transposition_step a b s1m s2m) 0 len1 (0%Z, 0%Z))
    as ([t k] & -> & _).
  { lia. }
  { unfold jaro_walked. simpl. rewrite !drop_0. repeat split; lia. }
  { intros i st Hi. apply jaro_transposition_step_inv; assumption. }
  cbn [bind fst]. unfold int_div_int.
  destruct (float_div_int_Ok (float_of_int t) 2) as (ft & ->); [lia|].
  cbn [bind].
  destruct (float_div_int_Ok (float_of_int m) len1) as (x & ->); [exact E1|].
  cbn [bind].
  destruct (float_div_int_Ok (float_of_int m) len2) as (y & ->); [exact E2|].
  cbn [bind].
  destruct (float_div_int_Ok (float_sub (float_of_int m) ft) m) as (z & ->);
    [exact Em|].
  cbn [bind]. apply float_div_int_Ok. lia.
Qed.

Lemma calculate_similarity_score_binary64_total (w1 w2 : string) :
  exists x, calculate_similarity_score_binary64 w1 w2 = Ok x.
Proof.
  unfold calculate_similarity_score_binary64.
  destruct (String.eqb (lower w1) (lower w2)) eqn:E.
  { eexists. reflexivity. }
  apply String.eqb_neq in E.
  destruct (ratio_binary64_total (lower w1) (lower w2)) as (s & ->).
  destruct (ratio_binary64_total (normalize_phonetic w1)
              (normalize_phonetic w2)) as (p & ->).
  cbn [bind]. unfold len, int_div_int.
  destruct (float_div_int_Ok
              (float_of_int (Z.abs (Z.of_nat (String.length w1)
                                    - Z.of_nat (String.length w2))))
              (Z.max (Z.of_nat (String.length w1))
                     (Z.of_nat (String.length w2)))) as (d & ->).
  { destruct (String.length w1) eqn:L1; [|lia].
    destruct (String.length w2) eqn:L2; [|lia].
    apply length_zero_empty in L1, L2. subst. contradiction. }
  cbn [bind].
  destruct (jaro_binary64_total (lower w1) (lower w2)) as (j & ->).
  cbn [bind]. eexists. reflexivity.
Qed.

Lemma score_binary64_total (w1 w2 : string) :
  exists s, score_binary64 w1 w2 = Ok s.
Proof.
  unfold score_binary64.
  destruct (calculate_similarity_score_binary64_total w1 w2) as (x & ->).
  eexists. reflexivity.
Qed.

(** The binary64 scores of the candidates "k" and "kh" for the query "ak"
    differ in the last place; as exact rationals both are [31 # 60]. *)
Example score_binary64_ak :
  score_binary64 "ak" "k" = Ok (4653719614949513 # 9007199254740992)%Q
  /\ score_binary64 "ak" "kh" = Ok (4653719614949512 # 9007199254740992)%Q
  /\ value (calculate_similarity_score "ak" "k") = Some (31 # 60)%Q
  /\ value (calculate_similarity_score "ak" "kh") = Some (31 # 60)%Q.
Proof. repeat split; vm_compute; reflexivity. Qed.

(** With "kh" before "k" in the vocabulary, the search on binary64 scores
    passes from "kh" to "k", whose score is one place higher. *)
Example find_best_match_binary64_ak :
  find_best_match_binary64
    {| reference_words := ["kh"; "k"];
       word_variants := <["kh" := ["kh"]]> (<["k" := ["k"]]> ∅) |}
    "ak" (1 # 2)
  = Ok "k".
Proof. vm_compute. reflexivity. Qed.

(** * The claims *)

(** C1.  When the lowercase form of the query is a key of [word_variants],
    [find_best_match] returns the first token of the list under that key,
    whatever the threshold; the scorer is not called: the result is the same
    with any function in its place, one that always raises included. *)
Theorem find_best_match_exact_hit (c : NonEnglishSpellCorrector)
    (q w : string) (rest : list string) (thr : Q)
    (score : string -> string -> result Q) :
  word_variants c !! lower q = Some (w :: rest) ->
  find_best_match c q thr = Ok w
  /\ find_best_match_with score c q thr = Ok w.
Proof.
  intros H. unfold find_best_match, find_best_match_with. rewrite H.
  split; reflexivity.
Qed.

Lemma find_best_match_exact_hit_witness :
  word_variants (load_reference_dictionary demo_reference) !! lower "RAM"
  = Some ["Ram"]
  /\ find_best_match (load_reference_dictionary demo_reference) "RAM" 1
     = Ok "Ram"
  /\ find_best_match_with (fun _ _ => Raise ZeroDivisionError)
       (load_reference_dictionary demo_reference) "RAM" 1
     = Ok "Ram".
Proof.
  assert (H : word_variants (load_reference_dictionary demo_reference)
              !! lower "RAM" = Some ["Ram"]) by (vm_compute; reflexivity).
  split; [exact H|].
  exact (find_best_match_exact_hit _ "RAM" "Ram" [] 1
           (fun _ _ => Raise ZeroDivisionError) H).
Defined.

(** C2.  Without an exact hit, when the score of every candidate is below
    the threshold, and so when there is no candidate at all,
    [find_best_match] returns the query as it is, and raises nothing.  The
    scores are those of the scorer the search calls, whichever it is: the
    statement holds for the binary64 scores of the program
    ([score_binary64], which never raises) as it does for the exact ones. *)
Theorem find_best_match_unmatched (score : string -> string -> result Q)
    (c : NonEnglishSpellCorrector) (q : string) (thr : Q) :
  word_variants c !! lower q = None ->
  (forall r, r ∈ reference_words c ->
             exists s, score q r = Ok s /\ (s < thr)%Q) ->
  find_best_match_with score c q thr = Ok q.
Proof. exact (find_best_match_with_below score c q thr). Qed.

(** The score of "k" for the query "ak" is the float 0.5166666666666667;
    at the next float up the query comes back as it is, and so it does with
    an empty vocabulary. *)
Lemma find_best_match_unmatched_witness :
  find_best_match_binary64 (load_reference_dictionary ["k"]) "ak"
    (4653719614949514 # 9007199254740992)
  = Ok "ak"
  /\ find_best_match_binary64 (load_reference_dictionary []) "ak" (6 # 10)
     = Ok "ak".
Proof.
  split.
  - apply (find_best_match_unmatched score_binary64).
    + vm_compute. reflexivity.
    + intros r Hr.
      change (reference_words (load_reference_dictionary ["k"]))
        with ["k"] in Hr.
      apply elem_of_cons in Hr as [-> | Hr]; [|inversion Hr].
      exists (4653719614949513 # 9007199254740992)%Q.
      split; vm_compute; reflexivity.
  - apply (find_best_match_unmatched score_binary64).
    + vm_compute. reflexivity.
    + intros r Hr. inversion Hr.
Defined.

(** C3.  In the scan, a candidate takes the place of the best so far only
    when its score is at least the threshold and over the best score so far.
    So of two candidates with the same score the later one is never the
    result; and the earlier one is the result when no candidate has a higher
    score, those before it have a lower one, and its score is at least the
    threshold and positive.  [sc r] is the score the scorer returns for the
    candidate [r]; the scorer is any function, so that the scores may be the
    binary64 scores of the program, and two scores are equal when the two
    floats are. *)
Theorem find_best_match_tie_break (score : string -> string -> result Q)
    (sc : string -> Q) (c : NonEnglishSpellCorrector) (q : string)
    (thr : Q) (l1 l2 l3 : list string) (c1 c2 : string) :
  word_variants c !! lower q = None ->
  reference_words c = l1 ++ c1 :: l2 ++ c2 :: l3 ->
  (forall r, r ∈ reference_words c -> score q r = Ok (sc r)) ->
  (sc c1 == sc c2)%Q ->
  (forall best best_score ref st',
      find_best_match_step score q thr (best, best_score) ref = Ok st' ->
      st' <> (best, best_score) ->
      exists s, score q ref = Ok s /\ st' = (ref, s)
                /\ (thr <= s)%Q /\ (best_score < s)%Q)
  /\ (c2 ∉ l1 ++ c1 :: l2 -> c2 <> q ->
      find_best_match_with score c q thr <> Ok c2)
  /\ ((forall r, r ∈ reference_words c -> (sc r <= sc c1)%Q) ->
      (forall r, r ∈ l1 -> (sc r < sc c1)%Q) ->
      (thr <= sc c1)%Q -> (0 < sc c1)%Q ->
      find_best_match_with score c q thr = Ok c1).
Proof.
  intros Hnone Hrefs Hsc Htie. split; [|split].
  - intros best best_score ref st'. unfold find_best_match_step.
    destruct (score q ref) as [s|e]; cbn [bind]; [|discriminate].
    destruct (Qle_bool thr s && Qlt_bool best_score s) eqn:E;
      intros [= <-] Hne; [|congruence].
    apply andb_true_iff in E as [E1 E2].
    apply Qle_bool_iff in E1. apply Qlt_bool_iff in E2.
    exists s. auto.
  - intros Hfresh Hq Hres.
    destruct (find_best_match_with_cases score sc c q thr Hnone Hsc)
      as [[H _] | (b & m1 & m2 & H & Hl & _ & _ & Hbefore & _)];
      rewrite H in Hres; injection Hres as ->; [congruence|].
    rewrite Hrefs in Hl.
    change (l1 ++ c1 :: l2 ++ c2 :: l3) with (l1 ++ (c1 :: l2) ++ c2 :: l3)
      in Hl.
    rewrite app_assoc in Hl. symmetry in Hl.
    assert (Hc1 : c1 ∈ l1 ++ c1 :: l2)
      by (apply elem_of_app; right; left).
    destruct (app_cons_align _ _ _ _ _ _ Hl) as [(t & E) | [(E & _) | (t & E)]].
    + apply Hfresh. rewrite E. apply elem_of_app. right. left.
    + rewrite <- E in Hc1. specialize (Hbefore c1 Hc1). lra.
    + assert (Hin : c1 ∈ m1) by (rewrite E; apply elem_of_app; auto).
      specialize (Hbefore c1 Hin). lra.
  - intros Hmax Hbefore Hthr Hpos.
    assert (Hc1 : c1 ∈ reference_words c)
      by (rewrite Hrefs; apply elem_of_app; right; left).
    destruct (find_best_match_with_cases score sc c q thr Hnone Hsc)
      as [[_ H] | (b & m1 & m2 & H & Hl & _ & _ & Hb1 & Hb2)].
    + exfalso. apply (H c1 Hc1). auto.
    + rewrite H. f_equal. rewrite Hrefs in Hl. symmetry in Hl.
      assert (Hb : b ∈ reference_words c)
        by (rewrite Hrefs, <- Hl; apply elem_of_app; right; left).
      destruct (app_cons_align _ _ _ _ _ _ Hl) as [(t & E) | [(_ & E) | (t & E)]].
      * exfalso. assert (Hin : b ∈ l1)
          by (rewrite E; apply elem_of_app; right; left).
        specialize (Hbefore b Hin).
        assert (Hle : (sc c1 <= sc b)%Q).
        { apply Hb2. rewrite E in Hl. rewrite <- app_assoc in Hl.
          apply app_inv_head in Hl. injection Hl as ->.
          apply elem_of_app. right. left. }
        lra.
      * exact E.
      * exfalso. assert (Hin : c1 ∈ m1)
          by (rewrite E; apply elem_of_app; right; left).
        specialize (Hb1 c1 Hin). specialize (Hmax b Hb). lra.
Qed.

(** A vocabulary whose set yields "ax" before "ay": for the query "ab" the
    two binary64 scores are the same float, and "ax" is returned. *)
Lemma find_best_match_tie_break_witness :
  (score_with score_binary64 "ab" "ax"
   == score_with score_binary64 "ab" "ay")%Q
  /\ find_best_match_binary64
       {| reference_words := ["ax"; "ay"];
          word_variants := <["ax" := ["ax"]]> (<["ay" := ["ay"]]> ∅) |}
       "ab" (1 # 2)
     = Ok "ax".
Proof.
  assert (Htie : (score_with score_binary64 "ab" "ax"
                  == score_with score_binary64 "ab" "ay")%Q)
    by (vm_compute; reflexivity).
  split; [exact Htie|].
  destruct (find_best_match_tie_break score_binary64
              (score_with score_binary64 "ab")
              {| reference_words := ["ax"; "ay"];
                 word_variants := <["ax" := ["ax"]]> (<["ay" := ["ay"]]> ∅) |}
              "ab" (1 # 2) [] [] [] "ax" "ay")
    as (_ & _ & H).
  - vm_compute. reflexivity.
  - reflexivity.
  - apply score_with_Ok. intros r _. apply score_binary64_total.
  - exact Htie.
  - apply H.
    + intros r Hr. cbn [reference_words] in Hr.
      apply elem_of_cons in Hr as [-> | Hr];
        [|apply elem_of_cons in Hr as [-> | Hr]; [|inversion Hr]];
        vm_compute; discriminate.
    + intros r Hr. inversion Hr.
    + vm_compute. discriminate.
    + vm_compute. reflexivity.
Defined.

(** C4.  For every two tokens, the empty one included,
    [calculate_similarity_score] returns a number from 0 to 1. *)
Theorem calculate_similarity_score_range (a b : string) :
  exists s, calculate_similarity_score a b = Ok s /\ (0 <= s <= 1)%Q.
Proof. exact (calculate_similarity_score_total a b). Qed.

(** C5, as the specification has it, fails: the scores of "tide" against
    "diet" and of "diet" against "tide" differ. *)
Lemma calculate_similarity_score_tide_diet :
  exists x y,
    calculate_similarity_score "tide" "diet" = Ok x
    /\ calculate_similarity_score "diet" "tide" = Ok y
    /\ (x == 49 # 120)%Q /\ (y == 7 # 12)%Q /\ ~ (x == y)%Q.
Proof.
  eexists. eexists.
  split; [vm_compute; reflexivity|]. split; [vm_compute; reflexivity|].
  split; [reflexivity|]. split; [reflexivity | discriminate].
Qed.

(** C5, amended.  The length penalty is the same in both orders; so the
    score of two tokens is the same in both orders whenever the ratio of
    the lowercase forms, the ratio of the phonetic forms and the Jaro
    similarity each are.  This covers the tokens that are equal but for
    case and the pairs with an empty token. *)
Theorem calculate_similarity_score_symmetric (a b : string)
    (s s' p p' j j' : Q) :
  ratio (lower a) (lower b) = Ok s ->
  ratio (lower b) (lower a) = Ok s' ->
  ratio (normalize_phonetic a) (normalize_phonetic b) = Ok p ->
  ratio (normalize_phonetic b) (normalize_phonetic a) = Ok p' ->
  _jaro_similarity (lower a) (lower b) = Ok j ->
  _jaro_similarity (lower b) (lower a) = Ok j' ->
  (s == s')%Q -> (p == p')%Q -> (j == j')%Q ->
  exists x y,
    calculate_similarity_score a b = Ok x
    /\ calculate_similarity_score b a = Ok y
    /\ (x == y)%Q.
Proof.
  intros Hs Hs' Hp Hp' Hj Hj' Es Ep Ej.
  unfold calculate_similarity_score.
  destruct (String.eqb (lower a) (lower b)) eqn:E.
  - apply String.eqb_eq in E.
    rewrite (proj2 (String.eqb_eq (lower b) (lower a))) by congruence.
    exists 1%Q, 1%Q. repeat split; reflexivity.
  - apply String.eqb_neq in E.
    rewrite (proj2 (String.eqb_neq (lower b) (lower a))) by congruence.
    rewrite Hs, Hs', Hp, Hp', Hj, Hj'. cbn [bind].
    replace (Z.abs (len b - len a)) with (Z.abs (len a - len b)) by lia.
    rewrite (Z.max_comm (len b) (len a)).
    assert (Hmax : (0 < Z.max (len a) (len b))%Z).
    { unfold len. destruct (String.length a) eqn:La; [|lia].
      destruct (String.length b) eqn:Lb; [|lia].
      apply length_zero_empty in La, Lb. subst. contradiction. }
    assert (Qmax : (0 < inject_Z (Z.max (len a) (len b)))%Q)
      by (apply inject_Z_pos; exact Hmax).
    rewrite py_div_Ok by lra. cbn [bind].
    eexists. eexists. split; [reflexivity|]. split; [reflexivity|].
    rewrite Es, Ep, Ej. reflexivity.
Qed.

(** "Kriishna" and "Krishna": the two ratios and the Jaro similarity are
    the same in both orders, and so is the score, [1151 # 1200]. *)
Lemma calculate_similarity_score_symmetric_witness :
  exists x y,
    calculate_similarity_score "Kriishna" "Krishna" = Ok x
    /\ calculate_similarity_score "Krishna" "Kriishna" = Ok y
    /\ (x == y)%Q.
Proof.
  apply (calculate_similarity_score_symmetric "Kriishna" "Krishna"
           (score_with ratio (lower "Kriishna") (lower "Krishna"))
           (score_with ratio (lower "Krishna") (lower "Kriishna"))
           (score_with ratio (normalize_phonetic "Kriishna")
              (normalize_phonetic "Krishna"))
           (score_with ratio (normalize_phonetic "Krishna")
              (normalize_phonetic "Kriishna"))
           (score_with _jaro_similarity (lower "Kriishna") (lower "Krishna"))
           (score_with _jaro_similarity (lower "Krishna")
              (lower "Kriishna")));
    vm_compute; reflexivity.
Defined.

(** C6.  Without an exact hit in a dictionary as
    [load_reference_dictionary] builds it, when [find_best_match] returns a
    candidate whose score is [sc r], it returns the query as it is at every
    threshold over [sc r].  The scores are those of the scorer the search
    calls, whichever it is: the statement holds for the binary64 scores of
    the program as it does for the exact ones. *)
Theorem find_best_match_threshold_monotone
    (score : string -> string -> result Q) (sc : string -> Q)
    (c : NonEnglishSpellCorrector) (q r : string) (thr thr' : Q) :
  dictionary_inv c ->
  word_variants c !! lower q = None ->
  (forall x, x ∈ reference_words c -> score q x = Ok (sc x)) ->
  find_best_match_with score c q thr = Ok r ->
  r ∈ reference_words c ->
  (sc r < thr')%Q ->
  find_best_match_with score c q thr' = Ok q.
Proof.
  intros (Hwords & _) Hnone Hsc Hres Hr Hthr.
  apply find_best_match_with_below; [exact Hnone|].
  intros x Hx. exists (sc x). split; [apply Hsc; exact Hx|].
  apply Qle_lt_trans with (y := sc r); [|exact Hthr].
  destruct (find_best_match_with_cases score sc c q thr Hnone Hsc)
    as [[H _] | (b & l1 & l2 & H & Hl & _ & _ & H1 & H2)];
    rewrite H in Hres; injection Hres as <-.
  - exfalso. destruct (Hwords q Hr) as [_ [l Hl]]. congruence.
  - rewrite Hl in Hx. apply elem_of_app in Hx as [Hx | Hx].
    + apply Qlt_le_weak. auto.
    + apply elem_of_cons in Hx as [-> | Hx]; [lra | auto].
Qed.

(** At the threshold 0.5166666666666667, the binary64 score of "k" for the
    query "ak", the candidate is returned; at the next float up the query
    comes back as it is. *)
Lemma find_best_match_threshold_monotone_witness :
  find_best_match_binary64 (load_reference_dictionary ["k"]) "ak"
    (4653719614949513 # 9007199254740992)
  = Ok "k"
  /\ find_best_match_binary64 (load_reference_dictionary ["k"]) "ak"
       (4653719614949514 # 9007199254740992)
     = Ok "ak".
Proof.
  assert (H : find_best_match_binary64 (load_reference_dictionary ["k"]) "ak"
                (4653719614949513 # 9007199254740992) = Ok "k")
    by (vm_compute; reflexivity).
  split; [exact H|].
  apply (find_best_match_threshold_monotone score_binary64
           (score_with score_binary64 "ak") _ "ak" "k"
           (4653719614949513 # 9007199254740992)
           (4653719614949514 # 9007199254740992)).
  - apply load_reference_dictionary_inv.
  - vm_compute. reflexivity.
  - apply score_with_Ok. intros x _. apply score_binary64_total.
  - exact H.
  - vm_compute. left.
  - vm_compute. reflexivity.
Defined.

(** C7, as the specification has it, fails: for two empty tokens both the
    Jaro similarity and the score are 1, not 0. *)
Lemma similarity_of_empty_tokens :
  _jaro_similarity "" "" = Ok 1%Q
  /\ calculate_similarity_score "" "" = Ok 1%Q
  /\ ~ (1 == 0)%Q.
Proof. repeat split. discriminate. Qed.

(** C7, amended.  With an empty token as either argument, the Jaro
    similarity and the score are defined: they are 0 when the other token is
    not empty, and 1 when it is empty too. *)
Theorem similarity_with_empty_token (x : string) :
  let v := if String.eqb x "" then 1%Q else 0%Q in
  _jaro_similarity "" x = Ok v
  /\ _jaro_similarity x "" = Ok v
  /\ (exists s, calculate_similarity_score "" x = Ok s /\ (s == v)%Q)
  /\ (exists s, calculate_similarity_score x "" = Ok s /\ (s == v)%Q).
Proof.
  destruct (String.eqb x "") eqn:E; simpl.
  - apply String.eqb_eq in E. subst x.
    repeat split; try (exists 1%Q; split; reflexivity).
  - apply String.eqb_neq in E.
    assert (Hj : forall s1 s2, s1 <> s2 -> s1 = "" \/ s2 = "" ->
                               _jaro_similarity s1 s2 = Ok 0%Q).
    { intros s1 s2 Hne H.
      destruct (jaro_total s1 s2) as (j & -> & _ & Hj). f_equal.
      apply Hj; [exact Hne|].
      intros ch H1 H2. destruct H as [-> | ->]; [inversion H1 | inversion H2]. }
    repeat split.
    + apply Hj; [congruence | auto].
    + apply Hj; [congruence | auto].
    + apply calculate_similarity_score_empty; [congruence | auto].
    + apply calculate_similarity_score_empty; [congruence | auto].
Qed.

(** C8, as the specification has it, fails: two empty strings share no
    character, and their Jaro similarity is 1. *)
Lemma jaro_of_empty_strings :
  (forall ch, ch ∈ chars "" -> ch ∈ chars "" -> False)
  /\ _jaro_similarity "" "" = Ok 1%Q
  /\ ~ (1 == 0)%Q.
Proof.
  split; [intros ch H; inversion H|]. split; [reflexivity | discriminate].
Qed.

(** C8, amended.  For two strings that share no character and are not both
    empty, the Jaro similarity is 0. *)
Theorem jaro_disjoint (s1 s2 : string) :
  s1 <> "" \/ s2 <> "" ->
  (forall ch, ch ∈ chars s1 -> ch ∈ chars s2 -> False) ->
  _jaro_similarity s1 s2 = Ok 0%Q.
Proof.
  intros Hne Hdisj.
  destruct (jaro_total s1 s2) as (j & -> & _ & Hj). f_equal.
  apply Hj; [|exact Hdisj].
  intros ->. destruct s2 as [|ch s2]; [destruct Hne; congruence|].
  apply (Hdisj ch); left.
Qed.

Lemma jaro_disjoint_witness : _jaro_similarity "abc" "xyz" = Ok 0%Q.
Proof.
  apply jaro_disjoint.
  - left. discriminate.
  - intros ch H1 H2.
    assert (D : Forall (fun x => x ∉ chars "xyz") (chars "abc")).
    { repeat constructor; intros H; repeat (apply elem_of_cons in H as [H | H];
        [discriminate|]); inversion H. }
    rewrite Forall_forall in D. exact (D ch H1 H2).
Defined.

(** C9.  "Gaanga" and "Ganga" have the same phonetic form. *)
Theorem normalize_phonetic_Gaanga_Ganga :
  normalize_phonetic "Gaanga" = normalize_phonetic "Ganga".
Proof. reflexivity. Qed.

(** C10.  With a dictionary as [load_reference_dictionary] builds it, whose
    words are not empty, [find_best_match] on the empty query returns the
    empty string at every threshold, and raises nothing: for every word of
    the dictionary the denominator of the length penalty is positive and the
    score is 0. *)
Theorem find_best_match_empty_query (c : NonEnglishSpellCorrector) (thr : Q) :
  dictionary_inv c ->
  find_best_match c "" thr = Ok ""
  /\ forall r, r ∈ reference_words c ->
               (0 < Z.max (len "") (len r))%Z
               /\ exists s, calculate_similarity_score "" r = Ok s
                            /\ (s == 0)%Q.
Proof.
  intros (Hw & Hv & _).
  assert (Hscore : forall r, r ∈ reference_words c ->
             exists s, calculate_similarity_score "" r = Ok s /\ (s == 0)%Q).
  { intros r Hr. destruct (Hw r Hr) as [Hne _].
    apply calculate_similarity_score_empty; [congruence | auto]. }
  split.
  - assert (Hnone : word_variants c !! lower "" = None).
    { simpl. destruct (word_variants c !! "") as [l|] eqn:E; [|reflexivity].
      exfalso. destruct (Hv _ _ E) as [Hl H].
      destruct l as [|w l]; [congruence|].
      destruct (H w) as [H1 H2]; [left|].
      apply (proj1 (lower_empty w)) in H1. destruct (Hw w H2). congruence. }
    destruct (find_best_match_cases c "" thr Hnone)
      as [[H _] | (b & l1 & l2 & _ & Hl & _ & Hpos & _)]; [exact H|].
    exfalso. assert (Hb : b ∈ reference_words c).
    { rewrite Hl. apply elem_of_app. right. left. }
    destruct (Hscore b Hb) as (s & Hs & H0).
    rewrite score_of_Ok in Hs. injection Hs as <-. lra.
  - intros r Hr. split; [|auto].
    destruct (Hw r Hr) as [Hne _]. unfold len.
    destruct r; [congruence|]. simpl. lia.
Qed.

Lemma find_best_match_empty_query_witness :
  find_best_match (load_reference_dictionary demo_reference) "" 0 = Ok "".
Proof.
  apply (find_best_match_empty_query
           (load_reference_dictionary demo_reference) 0).
  apply load_reference_dictionary_inv.
Defined.

(** * Further properties of the search *)

(** With a dictionary as [load_reference_dictionary] builds it, the search
    ends without an exception, on the query or on a word of the dictionary. *)
Lemma find_best_match_dictionary (c : NonEnglishSpellCorrector) (q : string)
    (thr : Q) :
  dictionary_inv c ->
  exists r,
    find_best_match c q thr = Ok r
    /\ (r = q \/ r ∈ reference_words c)
    /\ (is_Some (word_variants c !! lower q) ->
        r ∈ reference_words c /\ lower r = lower q).
Proof.
  intros (_ & Hv & _).
  destruct (word_variants c !! lower q) as [l|] eqn:E.
  - destruct (Hv _ _ E) as [Hl Hin].
    destruct l as [|w rest]; [congruence|].
    destruct (Hin w) as [H1 H2]; [left|].
    exists w. unfold find_best_match, find_best_match_with. rewrite E.
    split; [reflexivity|]. split; [right; exact H2|]. intros _. auto.
  - destruct (find_best_match_cases c q thr E)
      as [[H _] | (b & l1 & l2 & H & Hl & _)].
    + exists q. split; [exact H|]. split; [left; reflexivity|].
      intros [x Hx]. discriminate.
    + exists b. split; [exact H|]. split.
      * right. rewrite Hl. apply elem_of_app. right. left.
      * intros [x Hx]. discriminate.
Qed.

(** X1.  With a dictionary as [load_reference_dictionary] builds it,
    [find_best_match] raises nothing, and what it returns is the query itself
    or a word of the dictionary; on an exact hit it is a word of the
    dictionary with the lowercase form of the query. *)
Theorem find_best_match_total (c : NonEnglishSpellCorrector) (q : string)
    (thr : Q) :
  dictionary_inv c ->
  exists r,
    find_best_match c q thr = Ok r
    /\ (r = q \/ r ∈ reference_words c)
    /\ (is_Some (word_variants c !! lower q) ->
        r ∈ reference_words c /\ lower r = lower q).
Proof. exact (find_best_match_dictionary c q thr). Qed.

Lemma find_best_match_total_witness :
  exists r,
    find_best_match (load_reference_dictionary demo_reference) "RAAM" (6 # 10)
    = Ok r
    /\ (r = "RAAM"
        \/ r ∈ reference_words (load_reference_dictionary demo_reference))
    /\ (is_Some (word_variants (load_reference_dictionary demo_reference)
                 !! lower "RAAM") ->
        r ∈ reference_words (load_reference_dictionary demo_reference)
        /\ lower r = lower "RAAM").
Proof.
  apply find_best_match_total. apply load_reference_dictionary_inv.
Defined.

(** X2.  Without an exact hit, a result other than the query is a word of
    the dictionary whose score is at least the threshold, positive, and not
    passed by the score of any other word.  [sc x] is the score the scorer
    returns for the word [x]; the scorer is any function, the binary64
    scorer of the program among them. *)
Theorem find_best_match_best (score : string -> string -> result Q)
    (sc : string -> Q) (c : NonEnglishSpellCorrector) (q r : string)
    (thr : Q) :
  word_variants c !! lower q = None ->
  (forall x, x ∈ reference_words c -> score q x = Ok (sc x)) ->
  find_best_match_with score c q thr = Ok r ->
  r <> q ->
  r ∈ reference_words c
  /\ (thr <= sc r)%Q
  /\ (0 < sc r)%Q
  /\ forall x, x ∈ reference_words c -> (sc x <= sc r)%Q.
Proof.
  intros Hnone Hsc Hres Hne.
  destruct (find_best_match_with_cases score sc c q thr Hnone Hsc)
    as [[H _] | (b & l1 & l2 & H & Hl & H1 & H2 & H3 & H4)];
    rewrite H in Hres; injection Hres as <-; [congruence|].
  split; [rewrite Hl; apply elem_of_app; right; left|].
  split; [exact H1|]. split; [exact H2|].
  intros x Hx. rewrite Hl in Hx. apply elem_of_app in Hx as [Hx | Hx].
  - apply Qlt_le_weak. auto.
  - apply elem_of_cons in Hx as [-> | Hx]; [lra | auto].
Qed.

Lemma find_best_match_best_witness :
  "Krishna" ∈ reference_words (load_reference_dictionary demo_reference)
  /\ (6 # 10 <= score_with score_binary64 "Kriishna" "Krishna")%Q
  /\ (0 < score_with score_binary64 "Kriishna" "Krishna")%Q
  /\ forall x, x ∈ reference_words (load_reference_dictionary demo_reference)
               -> (score_with score_binary64 "Kriishna" x
                   <= score_with score_binary64 "Kriishna" "Krishna")%Q.
Proof.
  apply (find_best_match_best score_binary64
           (score_with score_binary64 "Kriishna")
           (load_reference_dictionary demo_reference) "Kriishna" "Krishna"
           (6 # 10)).
  - vm_compute. reflexivity.
  - apply score_with_Ok. intros x _. apply score_binary64_total.
  - vm_compute. reflexivity.
  - discriminate.
Defined.

(** X3.  Without an exact hit, when some word of the dictionary has a
    positive score that is at least the threshold, the result is a word of
    the dictionary, with a score that is at least as high; the scorer is
    any function, as in X2. *)
Theorem find_best_match_found (score : string -> string -> result Q)
    (sc : string -> Q) (c : NonEnglishSpellCorrector) (q x : string)
    (thr : Q) :
  word_variants c !! lower q = None ->
  (forall r, r ∈ reference_words c -> score q r = Ok (sc r)) ->
  x ∈ reference_words c ->
  (thr <= sc x)%Q ->
  (0 < sc x)%Q ->
  exists r,
    find_best_match_with score c q thr = Ok r
    /\ r ∈ reference_words c
    /\ (sc x <= sc r)%Q.
Proof.
  intros Hnone Hsc Hx Hthr Hpos.
  destruct (find_best_match_with_cases score sc c q thr Hnone Hsc)
    as [[_ H] | (b & l1 & l2 & H & Hl & H1 & H2 & H3 & H4)].
  - exfalso. apply (H x Hx). auto.
  - exists b. split; [exact H|].
    split; [rewrite Hl; apply elem_of_app; right; left|].
    rewrite Hl in Hx. apply elem_of_app in Hx as [Hx | Hx].
    + apply Qlt_le_weak. auto.
    + apply elem_of_cons in Hx as [-> | Hx]; [lra | auto].
Qed.

(** The binary64 score of "k" for the query "ak" is the float
    0.5166666666666667: at that threshold "k" is found. *)
Lemma find_best_match_found_witness :
  exists r,
    find_best_match_binary64 (load_reference_dictionary ["k"]) "ak"
      (4653719614949513 # 9007199254740992)
    = Ok r
    /\ r ∈ reference_words (load_reference_dictionary ["k"])
    /\ (score_with score_binary64 "ak" "k"
        <= score_with score_binary64 "ak" r)%Q.
Proof.
  apply (find_best_match_found score_binary64
           (score_with score_binary64 "ak")
           (load_reference_dictionary ["k"]) "ak" "k"
           (4653719614949513 # 9007199254740992)).
  - vm_compute. reflexivity.
  - apply score_with_Ok. intros x _. apply score_binary64_total.
  - vm_compute. left.
  - vm_compute. discriminate.
  - vm_compute. reflexivity.
Defined.

(** * Further properties of the similarities *)

Lemma count_true_full (l : list bool) :
  count_true l = Z.of_nat (List.length l) ->
  forall i, i < List.length l -> l !! i = Some true.
Proof.
  induction l as [|x l IH]; intros H i Hi; simpl in *; [lia|].
  pose proof (count_true_length l) as Hle.
  destruct x; [|lia]. destruct i as [|i]; [reflexivity|].
  simpl. apply IH; lia.
Qed.

(** A turn of the second loop when every flag of [s2_matches] is set: the
    loop [while not s2_matches[k]] does not move [k]. *)
Lemma jaro_transposition_step_full (s1 s2 : list ascii)
    (s1_matches s2_matches : list bool) (i t : Z) (x y : ascii) :
  (0 <= i)%Z ->
  s1_matches !! Z.to_nat i = Some true ->
  s2_matches !! Z.to_nat i = Some true ->
  s1 !! Z.to_nat i = Some x ->
  s2 !! Z.to_nat i = Some y ->
  jaro_transposition_step s1 s2 s1_matches s2_matches (t, i) i
  = Ok (if Ascii.eqb x y then t else (t + 1)%Z, (i + 1)%Z).
Proof.
  intros Hi H1 H2 Hx Hy. unfold jaro_transposition_step.
  assert (Hidx : forall (A : Type) (l : list A) (v : A),
             l !! Z.to_nat i = Some v -> index l i = Ok v).
  { intros A l v Hl. destruct (index_Ok l i) as (v' & -> & Hv').
    - apply lookup_lt_Some in Hl. lia.
    - congruence. }
  rewrite (Hidx _ _ _ H1). cbn [bind].
  rewrite (drop_S _ _ _ H2). cbn [jaro_skip_unmatched bind].
  rewrite (Hidx _ _ _ Hx), (Hidx _ _ _ Hy). reflexivity.
Qed.

(** The Jaro similarity of two strings that differ is below 1. *)
Lemma jaro_below_one (s1 s2 : string) :
  s1 <> s2 -> exists q, _jaro_similarity s1 s2 = Ok q /\ (q < 1)%Q.
Proof.
  intros Hne. unfold _jaro_similarity.
  destruct (String.eqb s1 s2) eqn:E.
  { apply String.eqb_eq in E. contradiction. }
  set (a := chars s1). set (b := chars s2).
  set (len1 := Z.of_nat (List.length a)).
  set (len2 := Z.of_nat (List.length b)).
  destruct ((len1 =? 0)%Z || (len2 =? 0)%Z) eqn:E0.
  { exists 0%Q. split; [reflexivity | lra]. }
  apply orb_false_iff in E0 as [E1 E2].
  destruct (for_each_range (jaro_matched a b True)
              (jaro_match_step a b (Z.max len1 len2 / 2 - 1)) 0 len1
              (repeat false (List.length a), repeat false (List.length b), 0%Z))
    as ([[s1m s2m] m] & -> & Hl1 & Hl2 & Hc1 & Hc2 & _ & _).
  { lia. }
  { unfold jaro_matched. rewrite !repeat_length, !count_true_repeat.
    repeat split; try lia.
    intros i' _ H. apply list_elem_of_lookup_2, list_elem_of_In in H.
    apply repeat_spec in H. discriminate. }
  { intros i st Hi. apply jaro_match_step_inv; [auto | exact Hi]. }
  cbn [bind]. destruct (m =? 0)%Z eqn:Em.
  { exists 0%Q. split; [reflexivity | lra]. }
  set (full := (m = len1 /\ m = len2)).
  destruct (for_each_range
              (fun i st => jaro_walked s1m s2m i st
                           /\ (full -> st.2 = i
                               /\ (st.1 = 0%Z ->
                                   take (Z.to_nat i) a = take (Z.to_nat i) b)))
              (jaro_transposition_step a b s1m s2m) 0 len1 (0%Z, 0%Z))
    as ([t k] & -> & (_ & Ht & _) & Hfull).
  { lia. }
  { split.
    - unfold jaro_walked. simpl. rewrite !drop_0. repeat split; lia.
    - intros _. split; reflexivity. }
  { intros i [t k] Hi [Hw Hf].
    destruct (jaro_transposition_step_inv a b s1m s2m i (t, k))
      as (st' & Hst' & Hw'); try assumption.
    exists st'. split; [exact Hst'|]. split; [exact Hw'|].
    intros F. destruct (Hf F) as [Hk Htake]. cbn [fst snd] in *. subst k.
    destruct F as [F1 F2].
    assert (B1 : s1m !! Z.to_nat i = Some true)
      by (apply count_true_full; unfold len1 in *; lia).
    assert (B2 : s2m !! Z.to_nat i = Some true)
      by (apply count_true_full; unfold len1, len2 in *; lia).
    destruct (a !! Z.to_nat i) as [x|] eqn:Hx;
      [|apply lookup_ge_None in Hx; unfold len1 in *; lia].
    destruct (b !! Z.to_nat i) as [y|] eqn:Hy;
      [|apply lookup_ge_None in Hy; unfold len1, len2 in *; lia].
    rewrite (jaro_transposition_step_full a b s1m s2m i t x y)
      in Hst' by (assumption || lia).
    injection Hst' as <-. cbn [fst snd].
    split; [reflexivity|].
    replace (Z.to_nat (i + 1)) with (S (Z.to_nat i)) by lia.
    rewrite (take_S_r _ _ _ Hx), (take_S_r _ _ _ Hy).
    destruct (Ascii.eqb x y) eqn:Exy.
    - apply Ascii.eqb_eq in Exy. subst y. intros T. rewrite (Htake T).
      reflexivity.
    - destruct Hw as (_ & Ht0 & _). lia. }
  cbn [bind fst].
  assert (Hm1 : (m <= len1)%Z).
  { pose proof (count_true_length s1m). unfold len1. lia. }
  assert (Hm2 : (m <= len2)%Z).
  { pose proof (count_true_length s2m). unfold len2. lia. }
  assert (Hm0 : (0 < m)%Z).
  { pose proof (count_true_nonneg s1m). lia. }
  assert (Htm : (0 <= t <= m)%Z).
  { rewrite count_true_take_all in Ht by (unfold len1; lia). lia. }
  assert (Hstrict : (m < len1 \/ m < len2 \/ 0 < t)%Z).
  { destruct (decide (m = len1)) as [F1|]; [|lia].
    destruct (decide (m = len2)) as [F2|]; [|lia].
    destruct (decide (t = 0%Z)) as [T|]; [|lia].
    exfalso. destruct (Hfull (conj F1 F2)) as [_ Htake].
    cbn [fst] in Htake. specialize (Htake T).
    rewrite !take_ge in Htake by (unfold len1, len2 in *; lia).
    apply Hne. rewrite <- (string_of_list_ascii_of_string s1),
      <- (string_of_list_ascii_of_string s2).
    unfold a, b, chars in Htake. rewrite Htake. reflexivity. }
  assert (Q1 : (0 < inject_Z len1)%Q) by (apply inject_Z_pos; lia).
  assert (Q2 : (0 < inject_Z len2)%Q) by (apply inject_Z_pos; lia).
  assert (Qm : (0 < inject_Z m)%Q) by (apply inject_Z_pos; lia).
  assert (Qm1 : (inject_Z m <= inject_Z len1)%Q) by (rewrite <- Zle_Qle; lia).
  assert (Qm2 : (inject_Z m <= inject_Z len2)%Q) by (rewrite <- Zle_Qle; lia).
  assert (Qt0 : (0 <= inject_Z t)%Q) by (apply inject_Z_nonneg; lia).
  rewrite !py_div_Ok by lra. cbn [bind].
  eexists. split; [reflexivity|].
  assert (Hhalf : (inject_Z t / 2 == inject_Z t * (1 # 2))%Q)
    by (unfold Qdiv; reflexivity).
  set (x := (inject_Z m / inject_Z len1)%Q).
  set (y := (inject_Z m / inject_Z len2)%Q).
  set (z := ((inject_Z m - inject_Z t / 2) / inject_Z m)%Q).
  assert (Hthird : ((x + y + z) / 3 == (x + y + z) * (1 # 3))%Q)
    by (unfold Qdiv; reflexivity).
  assert (X : (x <= 1)%Q) by (apply Qle_shift_div_r; lra).
  assert (Y : (y <= 1)%Q) by (apply Qle_shift_div_r; lra).
  assert (Z : (z <= 1)%Q) by (apply Qle_shift_div_r; lra).
  assert (S : (x < 1 \/ y < 1 \/ z < 1)%Q).
  { destruct Hstrict as [H | [H | H]].
    - left. apply Qlt_shift_div_r; [lra|]. rewrite Qmult_1_l.
      rewrite <- Zlt_Qlt. exact H.
    - right. left. apply Qlt_shift_div_r; [lra|]. rewrite Qmult_1_l.
      rewrite <- Zlt_Qlt. exact H.
    - right. right. apply Qlt_shift_div_r; [lra|].
      assert (0 < inject_Z t)%Q by (apply inject_Z_pos; lia). lra. }
  rewrite Hthird. destruct S as [S | [S | S]]; lra.
Qed.

(** The score of two tokens that differ by more than case is below 1. *)
Lemma calculate_similarity_score_below_one (w1 w2 : string) :
  lower w1 <> lower w2 ->
  exists q, calculate_similarity_score w1 w2 = Ok q /\ (q < 1)%Q.
Proof.
  intros E. unfold calculate_similarity_score.
  rewrite (proj2 (String.eqb_neq _ _) E).
  destruct (ratio_total (lower w1) (lower w2)) as (s & -> & Hs & _).
  destruct (ratio_total (normalize_phonetic w1) (normalize_phonetic w2))
    as (p & -> & Hp & _).
  cbn [bind]. unfold len.
  assert (Hmax : (0 < Z.max (Z.of_nat (String.length w1))
                          (Z.of_nat (String.length w2)))%Z).
  { destruct (String.length w1) eqn:L1; [|lia].
    destruct (String.length w2) eqn:L2; [|lia].
    apply length_zero_empty in L1, L2. subst. contradiction. }
  set (l1 := Z.of_nat (String.length w1)) in *.
  set (l2 := Z.of_nat (String.length w2)) in *.
  assert (Qmax : (0 < inject_Z (Z.max l1 l2))%Q) by (apply inject_Z_pos; lia).
  rewrite py_div_Ok by lra. cbn [bind].
  destruct (jaro_below_one (lower w1) (lower w2) E) as (j & -> & Hj).
  cbn [bind]. eexists. split; [reflexivity|].
  assert (L0 : (0 <= inject_Z (Z.abs (l1 - l2)) / inject_Z (Z.max l1 l2))%Q).
  { apply Qle_shift_div_l; [exact Qmax|]. rewrite Qmult_0_l.
    apply inject_Z_nonneg. lia. }
  lra.
Qed.

(** X4.  [_jaro_similarity] raises nothing (the loop
    [while not s2_matches[k]] never reads past the end of the list), its
    value lies between 0 and 1, and it is 1 for equal strings only. *)
Theorem jaro_similarity_range (s1 s2 : string) :
  exists q,
    _jaro_similarity s1 s2 = Ok q
    /\ (0 <= q <= 1)%Q
    /\ (q == 1 <-> s1 = s2)%Q.
Proof.
  destruct (jaro_total s1 s2) as (q & Hq & Hrange & _).
  exists q. split; [exact Hq|]. split; [exact Hrange|]. split.
  - intros H1. destruct (decide (s1 = s2)) as [|Hne]; [assumption|].
    destruct (jaro_below_one s1 s2 Hne) as (q' & Hq' & Hlt).
    rewrite Hq in Hq'. injection Hq' as <-. lra.
  - intros ->. unfold _jaro_similarity in Hq. rewrite String.eqb_refl in Hq.
    injection Hq as <-. reflexivity.
Qed.

(** X5.  The score is 1 exactly when the two tokens are equal but for
    case. *)
Theorem calculate_similarity_score_one (w1 w2 : string) :
  exists q,
    calculate_similarity_score w1 w2 = Ok q
    /\ (q == 1 <-> lower w1 = lower w2)%Q.
Proof.
  exists (score_of w1 w2). split; [apply score_of_Ok|]. split.
  - intros H1. destruct (decide (lower w1 = lower w2)) as [|Hne]; [assumption|].
    destruct (calculate_similarity_score_below_one w1 w2 Hne)
      as (q & Hq & Hlt).
    rewrite score_of_Ok in Hq. injection Hq as <-. lra.
  - intros H. unfold score_of, calculate_similarity_score.
    rewrite (proj2 (String.eqb_eq _ _) H). reflexivity.
Qed.

(** X6.  With a dictionary as [load_reference_dictionary] builds it and a
    threshold of 1 or more, a query that hits no key comes back as it is:
    only an exact hit is corrected. *)
Theorem find_best_match_threshold_one (c : NonEnglishSpellCorrector)
    (q : string) (thr : Q) :
  dictionary_inv c ->
  word_variants c !! lower q = None ->
  (1 <= thr)%Q ->
  find_best_match c q thr = Ok q.
Proof.
  intros (Hw & _ & _) Hnone Hthr.
  apply find_best_match_below; [exact Hnone|].
  intros r Hr. destruct (Hw r Hr) as [_ [l Hl]].
  assert (Hne : lower q <> lower r) by (intros E; congruence).
  destruct (calculate_similarity_score_below_one q r Hne) as (s & Hs & Hlt).
  rewrite score_of_Ok in Hs. injection Hs as <-. lra.
Qed.

Lemma find_best_match_threshold_one_witness :
  find_best_match (load_reference_dictionary demo_reference) "Kriishna" 1
  = Ok "Kriishna".
Proof.
  apply find_best_match_threshold_one.
  - apply load_reference_dictionary_inv.
  - vm_compute. reflexivity.
  - vm_compute. discriminate.
Defined.

(** * Further properties of the reference dictionary *)

Lemma words_of_snoc (lines : list string) (line : string) :
  words_of (lines ++ [line])
  = words_of lines ++ (if String.eqb (strip line) "" then [] else [strip line]).
Proof.
  unfold words_of. rewrite map_app, filter_app. f_equal. simpl.
  destruct (String.eqb (strip line) "") eqn:E.
  - apply String.eqb_eq in E. rewrite E.
    rewrite (filter_cons_False (fun w => w <> "")) by congruence. reflexivity.
  - apply String.eqb_neq in E.
    rewrite (filter_cons_True (fun w => w <> "")) by exact E. reflexivity.
Qed.

Lemma load_reference_words_elem (lines : list string) (w : string) :
  w ∈ reference_words (load_reference_dictionary lines) <-> w ∈ words_of lines.
Proof.
  induction lines as [|line lines IH] using rev_ind.
  - split; intros H; inversion H.
  - rewrite load_snoc, words_of_snoc, elem_of_app, <- IH. unfold load_line.
    destruct (String.eqb (strip line) "") eqn:E.
    + split; [auto | intros [H | H]; [exact H | inversion H]].
    + simpl. case_bool_decide as Hd.
      * rewrite list_elem_of_singleton. split; [auto|].
        intros [H | ->]; assumption.
      * rewrite elem_of_app. reflexivity.
Qed.

(** X7.  The set a reference file gives holds exactly the lines of the file
    that are not blank, stripped of the white space around them, each once:
    blank lines are passed over and a word that comes twice is kept once. *)
Theorem load_reference_words (lines : list string) :
  NoDup (reference_words (load_reference_dictionary lines))
  /\ forall w, w ∈ reference_words (load_reference_dictionary lines)
               <-> w <> "" /\ exists line, line ∈ lines /\ w = strip line.
Proof.
  split.
  - apply load_reference_dictionary_inv.
  - intros w. rewrite load_reference_words_elem. unfold words_of.
    rewrite list_elem_of_filter, list_elem_of_fmap.
    split; intros [H (line & H1 & H2)]; (split; [exact H|]); eauto.
Qed.

(** X8.  Under a key, [word_variants] holds the words of the file with that
    lowercase form, in the order of the file and as often as they come; a key
    is there only when some word has it. *)
Theorem load_word_variants (lines : list string) (k : string) :
  word_variants (load_reference_dictionary lines) !! k
  = match filter (fun w => lower w = k) (words_of lines) with
    | [] => None
    | l => Some l
    end.
Proof. exact (load_variants lines k). Qed.

(** X9.  A word of the reference file, looked up in the dictionary the file
    gives, comes back as the first word of the file with its lowercase form,
    at every threshold; so it comes back as it is when no other word of the
    file has its lowercase form. *)
Theorem find_best_match_of_word (lines : list string) (w : string) (thr : Q) :
  w ∈ words_of lines ->
  exists r,
    head (filter (fun x => lower x = lower w) (words_of lines)) = Some r
    /\ find_best_match (load_reference_dictionary lines) w thr = Ok r
    /\ ((forall x, x ∈ words_of lines -> lower x = lower w -> x = w) -> r = w).
Proof.
  intros Hw. unfold find_best_match, find_best_match_with.
  rewrite load_variants.
  destruct (filter (fun x => lower x = lower w) (words_of lines))
    as [|r rest] eqn:E.
  - exfalso. assert (H : w ∈ filter (fun x => lower x = lower w) (words_of lines))
      by (apply list_elem_of_filter; auto).
    rewrite E in H. inversion H.
  - exists r. split; [reflexivity|]. split; [reflexivity|].
    intros Huniq. assert (H : r ∈ filter (fun x => lower x = lower w)
                                    (words_of lines))
      by (rewrite E; left).
    apply list_elem_of_filter in H as [H1 H2]. auto.
Qed.

Lemma find_best_match_of_word_witness :
  exists r,
    head (filter (fun x => lower x = lower "RAM") (words_of ["Ram"; " RAM "]))
    = Some r
    /\ find_best_match (load_reference_dictionary ["Ram"; " RAM "]) "RAM" 1
       = Ok r
    /\ ((forall x, x ∈ words_of ["Ram"; " RAM "] -> lower x = lower "RAM" ->
                   x = "RAM") -> r = "RAM").
Proof.
  apply find_best_match_of_word. vm_compute. right. left.
Defined.

(** X10.  With a dictionary as [load_reference_dictionary] builds it, no two
    words of which differ by case only, a correction is not corrected
    again: looking up the result of [find_best_match] gives it back. *)
Theorem find_best_match_idempotent (c : NonEnglishSpellCorrector)
    (q r : string) (thr : Q) :
  dictionary_inv c ->
  (forall x y, x ∈ reference_words c -> y ∈ reference_words c ->
               lower x = lower y -> x = y) ->
  find_best_match c q thr = Ok r ->
  find_best_match c r thr = Ok r.
Proof.
  intros (Hw & Hv & _) Huniq Hres.
  assert (Hword : forall w, w ∈ reference_words c ->
                            find_best_match c w thr = Ok w).
  { intros w Hin. destruct (Hw w Hin) as [_ [l Hl]].
    destruct (Hv _ _ Hl) as [Hne Hall].
    destruct l as [|x rest]; [congruence|].
    destruct (Hall x) as [H1 H2]; [left|].
    unfold find_best_match, find_best_match_with. rewrite Hl.
    rewrite (Huniq x w H2 Hin H1). reflexivity. }
  destruct (word_variants c !! lower q) as [l|] eqn:E.
  - destruct (Hv _ _ E) as [Hne Hall].
    destruct l as [|x rest]; [congruence|].
    destruct (Hall x) as [_ H2]; [left|].
    unfold find_best_match, find_best_match_with in Hres. rewrite E in Hres.
    injection Hres as <-. apply Hword. exact H2.
  - destruct (find_best_match_cases c q thr E)
      as [[H _] | (b & l1 & l2 & H & Hl & _)];
      rewrite H in Hres; injection Hres as <-.
    + exact H.
    + apply Hword. rewrite Hl. apply elem_of_app. right. left.
Qed.

Lemma find_best_match_idempotent_witness :
  find_best_match (load_reference_dictionary ["Ram"; "Sita"]) "Siita" (6 # 10)
  = Ok "Sita"
  /\ find_best_match (load_reference_dictionary ["Ram"; "Sita"]) "Sita"
       (6 # 10) = Ok "Sita".
Proof.
  assert (H : find_best_match (load_reference_dictionary ["Ram"; "Sita"])
                "Siita" (6 # 10) = Ok "Sita") by (vm_compute; reflexivity).
  split; [exact H|].
  apply (find_best_match_idempotent _ "Siita" "Sita" (6 # 10)).
  - apply load_reference_dictionary_inv.
  - change (reference_words (load_reference_dictionary ["Ram"; "Sita"]))
      with ["Ram"; "Sita"].
    intros x y Hx Hy.
    apply elem_of_cons in Hx as [-> | Hx];
      [|apply elem_of_cons in Hx as [-> | Hx]; [|inversion Hx]];
      (apply elem_of_cons in Hy as [-> | Hy];
       [|apply elem_of_cons in Hy as [-> | Hy]; [|inversion Hy]]);
      intros E; try reflexivity; vm_compute in E; discriminate.
  - exact H.
Defined.

(** * Further properties of [normalize_phonetic] *)

Lemma chars_length (s : string) : List.length (chars s) = String.length s.
Proof. induction s as [|c s IH]; simpl; [reflexivity | f_equal; exact IH]. Qed.

Lemma str_length (l : list ascii) : String.length (str l) = List.length l.
Proof. rewrite <- chars_length, chars_str. reflexivity. Qed.

Lemma starts_with_length (p s : list ascii) :
  starts_with p s = true -> List.length p <= List.length s.
Proof.
  revert s. induction p as [|x p IH]; intros [|y s] H; simpl in *;
    try lia; try discriminate.
  apply andb_true_iff in H as [_ H]. apply IH in H. lia.
Qed.

Lemma replace_from_length (old new : list ascii) (s : list ascii) :
  List.length new <= List.length old ->
  forall skip, skip <= List.length s ->
    List.length (replace_from old new skip s) + skip <= List.length s.
Proof.
  intros Hnew. induction s as [|c s IH]; intros skip Hskip; simpl in *.
  - lia.
  - destruct skip as [|k].
    + destruct (starts_with old (c :: s)) eqn:E.
      * apply starts_with_length in E. simpl in E.
        rewrite length_app.
        destruct old as [|o old]; simpl in *.
        -- specialize (IH 0). lia.
        -- specialize (IH (List.length old - 0)). lia.
      * simpl. specialize (IH 0). lia.
    + specialize (IH k). lia.
Qed.

Lemma replace_length (old new s : string) :
  String.length new <= String.length old ->
  String.length (replace old new s) <= String.length s.
Proof.
  intros H. unfold replace. rewrite <- !chars_length in H.
  rewrite <- (chars_length s).
  destruct (chars old) as [|o old'] eqn:E.
  - destruct (chars new); [|simpl in H; lia]. rewrite str_length. simpl.
    induction (chars s) as [|c l IH]; simpl; lia.
  - rewrite str_length.
    pose proof (replace_from_length (o :: old') (chars new) (chars s) H 0).
    lia.
Qed.

Lemma phonetic_map_shortens :
  Forall (fun p : string * string => String.length p.2 <= String.length p.1)
         _create_phonetic_map.
Proof.
  unfold _create_phonetic_map. apply Forall_app. split.
  - repeat constructor.
  - apply Forall_forall. intros p Hp.
    apply list_elem_of_In, in_map_iff in Hp as (c & <- & _). simpl. lia.
Qed.

Lemma replace_all_length (m : list (string * string)) (w : string) :
  Forall (fun p : string * string => String.length p.2 <= String.length p.1) m ->
  String.length
    (fold_left (fun w '(variant, standard) => replace variant standard w) m w)
  <= String.length w.
Proof.
  intros Hm. revert w. induction Hm as [|[variant standard] m H _ IH];
    intros w; simpl.
  - lia.
  - etransitivity; [apply IH|]. apply replace_length. exact H.
Qed.

Lemma starts_with_repeat_other (c d : ascii) (j : nat) (s : list ascii) :
  Ascii.eqb c d = false -> starts_with (repeat d j) (c :: s) = true -> j = 0.
Proof.
  intros Hne H. destruct j as [|j]; [reflexivity|]. simpl in H.
  rewrite Ascii.eqb_sym, Hne in H. discriminate.
Qed.

Lemma re_sub_run_length (cls : ascii -> bool) (n keep : nat) :
  keep <= S n ->
  forall s skipping,
    List.length (re_sub_run cls n keep skipping s) <= List.length s
    /\ forall d j, skipping = Some d -> starts_with (repeat d j) s = true ->
         List.length (re_sub_run cls n keep skipping s) + j <= List.length s.
Proof.
  intros Hkeep. induction s as [|c s IH]; intros skipping.
  - simpl. split; [lia|]. intros d [|j] _ H; simpl in *; [lia | discriminate].
  - cbn [re_sub_run].
    destruct (match skipping with
              | Some d => Ascii.eqb c d
              | None => false
              end) eqn:E.
    + destruct skipping as [d|]; [|discriminate].
      destruct (IH (Some d)) as [H1 H2]. split; [simpl; lia|].
      intros d' [|j] [= <-] H; [simpl; lia|].
      simpl in H. apply andb_true_iff in H as [_ H].
      specialize (H2 d j eq_refl H). simpl. lia.
    + assert (Hfirst : List.length
                (if cls c && starts_with (repeat c n) s
                 then repeat c keep ++ re_sub_run cls n keep (Some c) s
                 else c :: re_sub_run cls n keep None s)
              <= List.length (c :: s)).
      { destruct (cls c && starts_with (repeat c n) s) eqn:M.
        - apply andb_true_iff in M as [_ M].
          destruct (IH (Some c)) as [_ H2]. specialize (H2 c n eq_refl M).
          rewrite length_app, repeat_length. simpl. lia.
        - destruct (IH None) as [H1 _]. simpl. lia. }
      split; [exact Hfirst|].
      intros d j -> H.
      rewrite (starts_with_repeat_other c d j s E H). lia.
Qed.

(** X11.  The phonetic form is never longer than the lowercase form of the
    token, from which it is made by replacements that shorten; and it is
    empty for the empty token only. *)
Theorem normalize_phonetic_length (w : string) :
  String.length (normalize_phonetic w) <= String.length (lower w)
  /\ (normalize_phonetic w = "" <-> w = "").
Proof.
  split.
  - unfold normalize_phonetic. rewrite str_length.
    etransitivity; [apply (re_sub_run_length _ 1 1); lia|].
    rewrite chars_str.
    etransitivity; [apply (re_sub_run_length _ 2 2); lia|].
    rewrite chars_length.
    apply replace_all_length, phonetic_map_shortens.
  - split.
    + intros H. destruct (decide (w = "")) as [|Hne]; [assumption|].
      exfalso. exact (normalize_phonetic_nonempty w Hne H).
    + intros ->. reflexivity.
Qed.

Lemma no_double_nil (cls : ascii -> bool) : no_double cls [].
Proof. intros i c H. discriminate. Qed.

Lemma no_double_cons (cls : ascii -> bool) (c : ascii) (l : list ascii) :
  (head l = Some c -> cls c = false) ->
  no_double cls l ->
  no_double cls (c :: l).
Proof.
  intros Hhead Hl [|i] x H1 H2; simpl in *.
  - injection H1 as <-. apply Hhead. destruct l; simpl in *; congruence.
  - exact (Hl i x H1 H2).
Qed.

(** After [re.sub] with the pattern [([class])\1+] and the replacement
    [\1], no character of the class is doubled. *)
Lemma re_sub_run_no_double (cls : ascii -> bool) (s : list ascii) :
  forall skipping,
    no_double cls (re_sub_run cls 1 1 skipping s)
    /\ (forall d, skipping = Some d ->
                  head (re_sub_run cls 1 1 skipping s) <> Some d)
    /\ (skipping = None -> head (re_sub_run cls 1 1 skipping s) = head s).
Proof.
  induction s as [|c s IH]; intros skipping.
  - simpl. split; [apply no_double_nil|]. split; [discriminate | reflexivity].
  - cbn [re_sub_run].
    destruct (match skipping with
              | Some d => Ascii.eqb c d
              | None => false
              end) eqn:E.
    + destruct skipping as [d|]; [|discriminate].
      destruct (IH (Some d)) as (H1 & H2 & _).
      split; [exact H1|]. split; [exact H2 | discriminate].
    + assert (Hd : forall d, skipping = Some d -> Some c <> Some d).
      { intros d -> [= ->]. rewrite Ascii.eqb_refl in E. discriminate. }
      destruct (cls c && starts_with (repeat c 1) s) eqn:M.
      * destruct (IH (Some c)) as (H1 & H2 & _). simpl.
        split; [|split; [exact Hd | reflexivity]].
        apply no_double_cons; [|exact H1].
        intros H. exfalso. exact (H2 c eq_refl H).
      * destruct (IH None) as (H1 & _ & H3).
        split; [|split; [exact Hd | reflexivity]].
        apply no_double_cons; [|exact H1].
        rewrite (H3 eq_refl). intros H.
        destruct s as [|x s]; [discriminate|]. simpl in H.
        injection H as ->. simpl in M. rewrite Ascii.eqb_refl in M.
        simpl in M. rewrite andb_true_r in M. exact M.
Qed.

(** X12.  In the phonetic form no consonant stands twice in a row. *)
Theorem normalize_phonetic_no_double (w : string) :
  no_double (char_in consonants) (chars (normalize_phonetic w)).
Proof.
  unfold normalize_phonetic. rewrite chars_str.
  apply re_sub_run_no_double.
Qed.

(** * Case *)

Lemma lower_char_idempotent (c : ascii) :
  lower_char (lower_char c) = lower_char c.
Proof. destruct c as [[] [] [] [] [] [] [] []]; reflexivity. Qed.

Lemma lower_idempotent (s : string) : lower (lower s) = lower s.
Proof.
  induction s as [|c s IH]; simpl; [reflexivity|].
  rewrite lower_char_idempotent, IH. reflexivity.
Qed.

Lemma lower_keeps_length (s : string) :
  String.length (lower s) = String.length s.
Proof. induction s as [|c s IH]; simpl; [reflexivity | f_equal; exact IH]. Qed.

Lemma lower_chars_fixed (s : string) :
  Forall (fun c => lower_char c = c) (chars (lower s)).
Proof.
  induction s as [|c s IH]; simpl; constructor;
    [apply lower_char_idempotent | exact IH].
Qed.

Lemma lower_of_fixed (l : list ascii) :
  Forall (fun c => lower_char c = c) l -> lower (str l) = str l.
Proof.
  induction 1 as [|c l Hc _ IH]; simpl; [reflexivity|].
  rewrite Hc, IH. reflexivity.
Qed.

(** What [str.replace] and [re.sub] give is made of characters of the
    string and of the replacement. *)
Lemma replace_from_Forall (P : ascii -> Prop) (old new : list ascii)
    (s : list ascii) :
  Forall P new -> Forall P s ->
  forall skip, Forall P (replace_from old new skip s).
Proof.
  intros Hnew. induction 1 as [|c s Hc Hs IH]; intros skip; simpl.
  - constructor.
  - destruct skip as [|k]; [|apply IH].
    destruct (starts_with old (c :: s)).
    + apply Forall_app. split; [exact Hnew | apply IH].
    + constructor; [exact Hc | apply IH].
Qed.

Lemma replace_Forall (P : ascii -> Prop) (old new s : string) :
  Forall P (chars new) -> Forall P (chars s) ->
  Forall P (chars (replace old new s)).
Proof.
  intros Hnew Hs. unfold replace. destruct (chars old) as [|o old'].
  - rewrite chars_str. apply Forall_app. split; [exact Hnew|].
    induction Hs as [|c l Hc _ IH]; simpl; [constructor|].
    constructor; [exact Hc|]. apply Forall_app. split; assumption.
  - rewrite chars_str. apply replace_from_Forall; assumption.
Qed.

Lemma phonetic_map_lowercase :
  Forall (fun p : string * string =>
            Forall (fun c => lower_char c = c) (chars p.2))
         _create_phonetic_map.
Proof.
  unfold _create_phonetic_map. apply Forall_app. split.
  - repeat constructor.
  - unfold consonants. simpl. repeat constructor.
Qed.

Lemma replace_all_Forall (P : ascii -> Prop) (m : list (string * string))
    (w : string) :
  Forall (fun p : string * string => Forall P (chars p.2)) m ->
  Forall P (chars w) ->
  Forall P (chars (fold_left
                     (fun w '(variant, standard) => replace variant standard w)
                     m w)).
Proof.
  intros Hm. revert w. induction Hm as [|[variant standard] m H _ IH];
    intros w Hw; simpl.
  - exact Hw.
  - apply IH. apply replace_Forall; assumption.
Qed.

Lemma re_sub_run_Forall (P : ascii -> Prop) (cls : ascii -> bool)
    (n keep : nat) (s : list ascii) :
  Forall P s -> forall skipping, Forall P (re_sub_run cls n keep skipping s).
Proof.
  induction 1 as [|c s Hc Hs IH]; intros skipping; cbn [re_sub_run].
  - constructor.
  - destruct (match skipping with
              | Some d => Ascii.eqb c d
              | None => false
              end); [apply IH|].
    destruct (cls c && starts_with (repeat c n) s).
    + apply Forall_app. split; [|apply IH].
      apply Forall_forall. intros x Hx.
      apply list_elem_of_In, repeat_spec in Hx. subst x. exact Hc.
    + constructor; [exact Hc | apply IH].
Qed.

(** X13.  The phonetic form holds no capital letter ([lower] leaves it as
    it is), and it is the same for a token and for its lowercase form. *)
Theorem normalize_phonetic_case (w : string) :
  lower (normalize_phonetic w) = normalize_phonetic w
  /\ normalize_phonetic (lower w) = normalize_phonetic w.
Proof.
  split.
  - unfold normalize_phonetic. apply lower_of_fixed.
    apply re_sub_run_Forall. rewrite chars_str. apply re_sub_run_Forall.
    apply replace_all_Forall; [exact phonetic_map_lowercase|].
    apply lower_chars_fixed.
  - unfold normalize_phonetic. rewrite lower_idempotent. reflexivity.
Qed.

Lemma calculate_similarity_score_lower (w1 w2 : string) :
  calculate_similarity_score (lower w1) (lower w2)
  = calculate_similarity_score w1 w2.
Proof.
  unfold calculate_similarity_score, len, normalize_phonetic.
  rewrite !lower_idempotent, !lower_keeps_length. reflexivity.
Qed.

(** X14.  The score does not depend on the case of its arguments (a
    character being a code point below 256, [lower] keeps the length). *)
Theorem calculate_similarity_score_case (w1 w2 : string) :
  calculate_similarity_score (lower w1) (lower w2)
  = calculate_similarity_score w1 w2
  /\ calculate_similarity_score (lower w1) w2
     = calculate_similarity_score w1 w2
  /\ calculate_similarity_score w1 (lower w2)
     = calculate_similarity_score w1 w2.
Proof.
  split; [apply calculate_similarity_score_lower|]. split.
  - rewrite <- (calculate_similarity_score_lower (lower w1) w2),
      <- (calculate_similarity_score_lower w1 w2), lower_idempotent.
    reflexivity.
  - rewrite <- (calculate_similarity_score_lower w1 (lower w2)),
      <- (calculate_similarity_score_lower w1 w2), lower_idempotent.
    reflexivity.
Qed.

Lemma score_of_case (q q' x : string) :
  lower q = lower q' -> score_of q x = score_of q' x.
Proof.
  intros H. unfold score_of.
  rewrite <- (calculate_similarity_score_lower q x),
    <- (calculate_similarity_score_lower q' x), H. reflexivity.
Qed.

(** X15.  Two queries with the same lowercase form and the same length get
    the same answer, unless each comes back as it is.  For strings of code
    points below 256 the lowercase form fixes the length; Python's [lower]
    changes the length of some other strings, and the score reads the length
    of the query as typed. *)
Theorem find_best_match_case (c : NonEnglishSpellCorrector) (q q' : string)
    (thr : Q) :
  lower q = lower q' ->
  String.length q = String.length q' ->
  find_best_match c q thr = find_best_match c q' thr
  \/ (find_best_match c q thr = Ok q /\ find_best_match c q' thr = Ok q').
Proof.
  intros Hq _.
  destruct (word_variants c !! lower q) as [l|] eqn:E.
  { left. unfold find_best_match, find_best_match_with.
    rewrite <- Hq, E. reflexivity. }
  assert (E' : word_variants c !! lower q' = None) by (rewrite <- Hq; exact E).
  destruct (find_best_match_cases c q thr E)
    as [[H Hall] | (b & l1 & l2 & H & Hl & H1 & H2 & H3 & H4)];
    destruct (find_best_match_cases c q' thr E')
      as [[H' Hall'] | (b' & m1 & m2 & H' & Hl' & H1' & H2' & H3' & H4')].
  - right. auto.
  - exfalso. apply (Hall b').
    + rewrite Hl'. apply elem_of_app. right. left.
    + rewrite (score_of_case q q' b' Hq). auto.
  - exfalso. apply (Hall' b).
    + rewrite Hl. apply elem_of_app. right. left.
    + rewrite <- (score_of_case q q' b Hq). auto.
  - left. rewrite H, H'. f_equal.
    assert (S : forall x, score_of q' x = score_of q x)
      by (intros x; symmetry; apply score_of_case; exact Hq).
    rewrite Hl in Hl'.
    destruct (app_cons_align _ _ _ _ _ _ Hl')
      as [(t & Em) | [(_ & Eb) | (t & El)]].
    + exfalso. assert (Hin : b ∈ m1)
        by (rewrite Em; apply elem_of_app; right; left).
      specialize (H3' b Hin). rewrite !S in H3'.
      assert (Hle : (score_of q b' <= score_of q b)%Q).
      { apply H4. rewrite Em in Hl'. rewrite <- app_assoc in Hl'.
        apply app_inv_head in Hl'. injection Hl' as ->.
        apply elem_of_app. right. left. }
      lra.
    + exact Eb.
    + exfalso. assert (Hin : b' ∈ l1)
        by (rewrite El; apply elem_of_app; right; left).
      specialize (H3 b' Hin).
      assert (Hle : (score_of q' b <= score_of q' b')%Q).
      { apply H4'. rewrite El in Hl'. rewrite <- app_assoc in Hl'.
        apply app_inv_head in Hl'. injection Hl' as <-.
        apply elem_of_app. right. left. }
      rewrite !S in Hle. lra.
Qed.

Lemma find_best_match_case_witness :
  find_best_match (load_reference_dictionary demo_reference) "kriishna"
    (6 # 10)
  = find_best_match (load_reference_dictionary demo_reference) "KRIISHNA"
      (6 # 10)
  \/ (find_best_match (load_reference_dictionary demo_reference) "kriishna"
        (6 # 10) = Ok "kriishna"
      /\ find_best_match (load_reference_dictionary demo_reference) "KRIISHNA"
           (6 # 10) = Ok "KRIISHNA").
Proof. apply find_best_match_case; reflexivity. Defined.

(** * The files *)

Lemma words_of_cons (line : string) (lines : list string) :
  words_of (line :: lines)
  = (if String.eqb (strip line) "" then [] else [strip line]) ++ words_of lines.
Proof.
  unfold words_of. simpl map.
  destruct (String.eqb (strip line) "") eqn:E.
  - apply String.eqb_eq in E.
    rewrite (filter_cons_False (fun w => w <> "")) by congruence. reflexivity.
  - apply String.eqb_neq in E.
    rewrite (filter_cons_True (fun w => w <> "")) by exact E. reflexivity.
Qed.

(** The loop of [process_file] over the lines of the input ends without an
    exception; it adds one pair for every line that is not blank, in the
    order of the lines: the stripped line and what [find_best_match] returns
    for it. *)
Lemma process_lines_total (score : string -> string -> result Q)
    (c : NonEnglishSpellCorrector) (thr : Q) (lines : list string) :
  (forall w1 w2, exists s, score w1 w2 = Ok s) ->
  dictionary_inv c ->
  forall results0,
  exists results,
    for_each lines (process_line score c thr) results0
    = Ok (results0 ++ results)
    /\ map fst results = words_of lines
    /\ Forall (fun r => find_best_match_with score c r.1 thr = Ok r.2
                        /\ (r.2 = r.1 \/ r.2 ∈ reference_words c)) results.
Proof.
  intros Hscore Hinv. induction lines as [|line lines IH]; intros results0.
  - exists []. rewrite app_nil_r. repeat split. constructor.
  - cbn [for_each]. unfold process_line at 1. rewrite words_of_cons.
    destruct (String.eqb (strip line) "") eqn:E; cbn [bind].
    + apply IH.
    + destruct (find_best_match_with_dictionary score c (strip line) thr
                  Hscore Hinv) as (r & Hr & Hin).
      rewrite Hr. cbn [bind].
      destruct (IH (results0 ++ [(strip line, r)])) as (rest & -> & H1 & H2).
      exists ((strip line, r) :: rest). rewrite <- app_assoc.
      split; [reflexivity|]. split; [simpl; rewrite H1; reflexivity|].
      constructor; [simpl; auto | exact H2].
Qed.

(** X16.  With a dictionary as [load_reference_dictionary] builds it, and
    whatever lines the input file yields, the loop of [process_file] raises
    nothing and builds one row for every line that is not blank, in the
    order of the lines: the stripped line and what [find_best_match] returns
    for it.  The scorer is any function that raises nothing, as the
    binary64 scorer of the program is. *)
Theorem process_file_results_rows (score : string -> string -> result Q)
    (c : NonEnglishSpellCorrector) (lines : list string) (thr : Q) :
  (forall w1 w2, exists s, score w1 w2 = Ok s) ->
  dictionary_inv c ->
  exists results,
    process_file_results score c lines thr = Ok results
    /\ map fst results = words_of lines
    /\ Forall (fun r => find_best_match_with score c r.1 thr = Ok r.2) results.
Proof.
  intros Hscore Hinv. unfold process_file_results.
  destruct (process_lines_total score c thr lines Hscore Hinv [])
    as (results & -> & H1 & H2).
  exists results. split; [reflexivity|]. split; [exact H1|].
  eapply Forall_impl; [exact H2|]. intros r [H _]. exact H.
Qed.

Lemma process_file_results_rows_witness :
  exists results,
    process_file_results score_binary64
      (load_reference_dictionary demo_reference)
      (file_lines [] (chars ("RAAM" ++ String LF (String LF "  Shiiv "))))
      (6 # 10)
    = Ok results
    /\ map fst results = ["RAAM"; "Shiiv"]
    /\ Forall (fun r => find_best_match_binary64
                          (load_reference_dictionary demo_reference) r.1
                          (6 # 10) = Ok r.2) results.
Proof.
  exact (process_file_results_rows score_binary64
           (load_reference_dictionary demo_reference)
           (file_lines [] (chars ("RAAM" ++ String LF (String LF "  Shiiv "))))
           (6 # 10) score_binary64_total
           (load_reference_dictionary_inv demo_reference)).
Defined.

(** X18.  Whatever lines the reference file and the input file yield,
    loading the dictionary and running the loop of [process_file] raise
    nothing; there is one row for every line of the input that is not
    blank, and the correction in a row is the word of the row as it is or a
    word of the reference file. *)
Theorem process_file_results_corrections
    (score : string -> string -> result Q)
    (reference_lines input_lines : list string) (thr : Q) :
  (forall w1 w2, exists s, score w1 w2 = Ok s) ->
  exists results,
    process_file_results score (load_reference_dictionary reference_lines)
      input_lines thr = Ok results
    /\ map fst results = words_of input_lines
    /\ Forall (fun r => r.2 = r.1 \/ r.2 ∈ words_of reference_lines) results.
Proof.
  intros Hscore. unfold process_file_results.
  destruct (process_lines_total score
              (load_reference_dictionary reference_lines)
              thr input_lines Hscore (load_reference_dictionary_inv _) [])
    as (results & -> & H1 & H2).
  exists results. split; [reflexivity|]. split; [exact H1|].
  eapply Forall_impl; [exact H2|]. intros r [_ [H | H]]; [left; exact H|].
  right. apply load_reference_words_elem. exact H.
Qed.

Lemma process_file_results_corrections_witness :
  exists results,
    process_file_results score_binary64
      (load_reference_dictionary ["Ram"; "Shiva"]) ["RAAM"; ""; " Shiiv "]
      (6 # 10) = Ok results
    /\ map fst results = words_of ["RAAM"; ""; " Shiiv "]
    /\ Forall (fun r => r.2 = r.1 \/ r.2 ∈ words_of ["Ram"; "Shiva"]) results.
Proof.
  exact (process_file_results_corrections score_binary64 ["Ram"; "Shiva"]
           ["RAAM"; ""; " Shiiv "] (6 # 10) score_binary64_total).
Defined.

(** * Reading back what [process_file] writes *)

Lemma chars_app (s1 s2 : string) :
  chars (s1 ++ s2)%string = chars s1 ++ chars s2.
Proof. induction s1 as [|c s1 IH]; simpl; [reflexivity | f_equal; exact IH]. Qed.

Lemma str_chars (s : string) : str (chars s) = s.
Proof. apply string_of_list_ascii_of_string. Qed.

(** A line without a line end inside, followed by ["\n"], is read as one
    line. *)
Lemma file_lines_line (body rest : list ascii) :
  Forall (fun c => c <> LF /\ c <> CR) body ->
  forall cur,
    file_lines cur (body ++ LF :: rest)
    = str (rev cur ++ body ++ [LF]) :: file_lines [] rest.
Proof.
  induction 1 as [|c body [H1 H2] _ IH]; intros cur.
  - simpl. reflexivity.
  - cbn [app file_lines].
    rewrite (proj2 (Ascii.eqb_neq _ _) H1), (proj2 (Ascii.eqb_neq _ _) H2).
    rewrite IH. simpl. rewrite <- app_assoc. reflexivity.
Qed.

Lemma output_row_chars (r : string * string) :
  chars (output_row r) = (chars r.1 ++ TAB :: chars r.2) ++ [LF].
Proof.
  unfold output_row. rewrite chars_app. simpl. rewrite chars_app.
  rewrite <- app_assoc. reflexivity.
Qed.

Lemma output_text_chars (results : list (string * string)) :
  chars (output_text results)
  = chars output_header ++ flat_map (fun r => chars (output_row r)) results.
Proof.
  unfold output_text. generalize output_header as text.
  induction results as [|r results IH]; intros text; simpl.
  - rewrite app_nil_r. reflexivity.
  - rewrite IH, chars_app, <- app_assoc. reflexivity.
Qed.

Lemma file_lines_rows (results : list (string * string)) :
  Forall (fun r => no_newline r.1 /\ no_newline r.2) results ->
  file_lines [] (flat_map (fun r => chars (output_row r)) results)
  = map output_row results.
Proof.
  induction 1 as [|r results [H1 H2] _ IH]; simpl; [reflexivity|].
  rewrite output_row_chars, <- app_assoc. simpl app.
  rewrite file_lines_line.
  - rewrite IH. simpl. f_equal.
    rewrite <- (str_chars (output_row r)), output_row_chars. reflexivity.
  - apply Forall_app. split; [exact H1|].
    constructor; [split; discriminate | exact H2].
Qed.

Lemma lstrip_Forall (P : ascii -> Prop) (l : list ascii) :
  Forall P l -> Forall P (lstrip l).
Proof.
  induction 1 as [|c l Hc Hl IH]; simpl; [constructor|].
  destruct (is_space c); [exact IH | constructor; assumption].
Qed.

Lemma strip_Forall (P : ascii -> Prop) (l : list ascii) :
  Forall P l -> Forall P (chars (strip (str l))).
Proof.
  intros H. unfold strip. rewrite !chars_str.
  apply Forall_rev, lstrip_Forall, Forall_rev, lstrip_Forall, H.
Qed.

Lemma lstrip_snoc_space (l : list ascii) (c : ascii) :
  is_space c = true ->
  lstrip (l ++ [c]) = match lstrip l with [] => [] | y => y ++ [c] end.
Proof.
  intros Hc. induction l as [|x l IH]; simpl.
  - rewrite Hc. reflexivity.
  - destruct (is_space x); [exact IH | reflexivity].
Qed.

(** The line end that a line read from a file keeps is stripped with the
    white space before it. *)
Lemma strip_line_end (body : list ascii) :
  strip (str (body ++ [LF])) = strip (str body).
Proof.
  unfold strip. rewrite !chars_str.
  rewrite (lstrip_snoc_space body LF) by reflexivity.
  destruct (lstrip body) as [|y l]; [reflexivity|].
  rewrite rev_app_distr. reflexivity.
Qed.

(** A line read from a file holds no line end but the one it may end
    with. *)
Lemma file_lines_shape (n : nat) :
  forall text cur,
    List.length text <= n ->
    Forall (fun c => c <> LF /\ c <> CR) cur ->
    Forall (fun line =>
              exists body, Forall (fun c => c <> LF /\ c <> CR) body
                           /\ (line = str body \/ line = str (body ++ [LF])))
           (file_lines cur text).
Proof.
  induction n as [|n IH]; intros text cur Hn Hcur.
  - destruct text; [|simpl in Hn; lia]. simpl.
    destruct cur as [|c cur]; [constructor|].
    constructor; [|constructor].
    exists (rev (c :: cur)). split; [apply Forall_rev, Hcur | left; reflexivity].
  - assert (Hline : exists body,
               Forall (fun c => c <> LF /\ c <> CR) body
               /\ (str (rev (LF :: cur)) = str body
                   \/ str (rev (LF :: cur)) = str (body ++ [LF]))).
    { exists (rev cur). split; [apply Forall_rev, Hcur|]. right. reflexivity. }
    destruct text as [|c rest]; simpl.
    + destruct cur as [|c cur]; [constructor|].
      constructor; [|constructor].
      exists (rev (c :: cur)).
      split; [apply Forall_rev, Hcur | left; reflexivity].
    + simpl in Hn. destruct (Ascii.eqb c LF) eqn:E1.
      * constructor; [exact Hline|]. apply IH; [lia | constructor].
      * destruct (Ascii.eqb c CR) eqn:E2.
        -- destruct rest as [|d rest'].
           ++ constructor; [exact Hline | constructor].
           ++ simpl in Hn. destruct (Ascii.eqb d LF).
              ** constructor; [exact Hline|]. apply IH; [lia | constructor].
              ** constructor; [exact Hline|].
                 apply IH; [simpl; lia | constructor].
        -- apply IH; [lia|]. constructor; [|exact Hcur].
           split; apply Ascii.eqb_neq; assumption.
Qed.

Lemma words_of_file_lines_no_newline (text : list ascii) :
  Forall no_newline (words_of (file_lines [] text)).
Proof.
  unfold words_of. apply Forall_forall. intros w Hw.
  apply list_elem_of_filter in Hw as [_ Hw].
  apply list_elem_of_fmap in Hw as (line & -> & Hline).
  pose proof (file_lines_shape (List.length text) text [] (le_n _)
                (List.Forall_nil _)) as Hshape.
  rewrite Forall_forall in Hshape.
  destruct (Hshape line Hline) as (body & Hbody & [-> | ->]).
  - apply strip_Forall. exact Hbody.
  - rewrite strip_line_end. apply strip_Forall. exact Hbody.
Qed.

(** X19.  Whatever texts the reference file and the input file are read
    as, the text that [process_file] passes to [write], read back line by
    line, is the header followed by one line for every row, the query, a
    tab, the correction and a line end: no word written holds a line end.
    The scorer is any function that raises nothing. *)
Theorem process_file_read_back (score : string -> string -> result Q)
    (reference_text input_text : string) (thr : Q) :
  (forall w1 w2, exists s, score w1 w2 = Ok s) ->
  exists results,
    process_file_results score
      (load_reference_dictionary (file_lines [] (chars reference_text)))
      (file_lines [] (chars input_text)) thr
    = Ok results
    /\ map fst results = words_of (file_lines [] (chars input_text))
    /\ file_lines [] (chars (output_text results))
       = output_header :: map output_row results.
Proof.
  intros Hscore. unfold process_file_results.
  set (c := load_reference_dictionary (file_lines [] (chars reference_text))).
  destruct (process_lines_total score c thr (file_lines [] (chars input_text))
              Hscore (load_reference_dictionary_inv _) [])
    as (results & -> & H1 & H2).
  exists results.
  split; [reflexivity|]. split; [exact H1|].
  rewrite output_text_chars.
  set (body := chars "Original" ++ TAB :: chars "Corrected").
  assert (Hh : chars output_header = body ++ [LF]) by reflexivity.
  rewrite Hh, <- app_assoc.
  change ([LF] ++ ?x) with (LF :: x). rewrite file_lines_line.
  - rewrite file_lines_rows; [reflexivity|].
    assert (Hq : Forall no_newline (map fst results)).
    { rewrite H1. apply words_of_file_lines_no_newline. }
    rewrite Forall_fmap in Hq.
    rewrite Forall_forall in H2, Hq. apply Forall_forall. intros r Hr.
    specialize (Hq r Hr). simpl in Hq. split; [exact Hq|].
    destruct (H2 r Hr) as [_ [-> | H]]; [exact Hq|].
    apply load_reference_words_elem in H.
    pose proof (words_of_file_lines_no_newline (chars reference_text)) as Hw.
    rewrite Forall_forall in Hw. exact (Hw _ H).
  - repeat constructor; discriminate.
Qed.

Lemma process_file_read_back_witness :
  exists results,
    process_file_results score_binary64
      (load_reference_dictionary
         (file_lines [] (chars ("Ram" ++ String LF "Shiva"))))
      (file_lines [] (chars ("RAAM" ++ String CR (String LF " Shiiv "))))
      (6 # 10)
    = Ok results
    /\ map fst results
       = words_of (file_lines []
                     (chars ("RAAM" ++ String CR (String LF " Shiiv "))))
    /\ file_lines [] (chars (output_text results))
       = output_header :: map output_row results.
Proof.
  exact (process_file_read_back score_binary64
           ("Ram" ++ String LF "Shiva")
           ("RAAM" ++ String CR (String LF " Shiiv ")) (6 # 10)
           score_binary64_total).
Defined.

(** * The threshold and the score 0 *)

(** The first of the candidates with the highest score is one candidate. *)
Lemma first_best_unique (sc : string -> Q) (l1 l2 m1 m2 : list string)
    (b b' : string) :
  l1 ++ b :: l2 = m1 ++ b' :: m2 ->
  (forall r, r ∈ l1 -> (sc r < sc b)%Q) ->
  (forall r, r ∈ l2 -> (sc r <= sc b)%Q) ->
  (forall r, r ∈ m1 -> (sc r < sc b')%Q) ->
  (forall r, r ∈ m2 -> (sc r <= sc b')%Q) ->
  b = b'.
Proof.
  intros Hl H1 H2 H1' H2'.
  destruct (app_cons_align _ _ _ _ _ _ Hl) as [(t & Em) | [(_ & Eb) | (t & El)]].
  - exfalso. assert (Hin : b ∈ m1)
      by (rewrite Em; apply elem_of_app; right; left).
    specialize (H1' b Hin).
    assert (Hle : (sc b' <= sc b)%Q).
    { apply H2. rewrite Em in Hl. rewrite <- app_assoc in Hl.
      apply app_inv_head in Hl. injection Hl as ->.
      apply elem_of_app. right. left. }
    lra.
  - exact Eb.
  - exfalso. assert (Hin : b' ∈ l1)
      by (rewrite El; apply elem_of_app; right; left).
    specialize (H1 b' Hin).
    assert (Hle : (sc b <= sc b')%Q).
    { apply H2'. rewrite El in Hl. rewrite <- app_assoc in Hl.
      apply app_inv_head in Hl. injection Hl as <-.
      apply elem_of_app. right. left. }
    lra.
Qed.

(** X20.  Without an exact hit, the threshold decides whether a correction
    is made, not which one: two calls with different thresholds that both
    return something other than the query return the same word. *)
Theorem find_best_match_threshold_choice (c : NonEnglishSpellCorrector)
    (q r1 r2 : string) (thr1 thr2 : Q) :
  word_variants c !! lower q = None ->
  find_best_match c q thr1 = Ok r1 ->
  find_best_match c q thr2 = Ok r2 ->
  r1 <> q -> r2 <> q ->
  r1 = r2.
Proof.
  intros Hnone Hr1 Hr2 Hq1 Hq2.
  destruct (find_best_match_cases c q thr1 Hnone)
    as [[H _] | (b & l1 & l2 & H & Hl & _ & _ & H3 & H4)];
    rewrite H in Hr1; injection Hr1 as <-; [congruence|].
  destruct (find_best_match_cases c q thr2 Hnone)
    as [[H' _] | (b' & m1 & m2 & H' & Hl' & _ & _ & H3' & H4')];
    rewrite H' in Hr2; injection Hr2 as <-; [congruence|].
  rewrite Hl in Hl'.
  exact (first_best_unique (score_of q) _ _ _ _ _ _ Hl' H3 H4 H3' H4').
Qed.

Lemma find_best_match_threshold_choice_witness :
  exists r1 r2,
    find_best_match (load_reference_dictionary demo_reference) "Kriishna"
      (6 # 10) = Ok r1
    /\ find_best_match (load_reference_dictionary demo_reference) "Kriishna"
         (1 # 10) = Ok r2
    /\ r1 = r2.
Proof.
  assert (H1 : find_best_match (load_reference_dictionary demo_reference)
                 "Kriishna" (6 # 10) = Ok "Krishna")
    by (vm_compute; reflexivity).
  assert (H2 : find_best_match (load_reference_dictionary demo_reference)
                 "Kriishna" (1 # 10) = Ok "Krishna")
    by (vm_compute; reflexivity).
  exists "Krishna", "Krishna". split; [exact H1|]. split; [exact H2|].
  apply (find_best_match_threshold_choice
           (load_reference_dictionary demo_reference) "Kriishna"
           "Krishna" "Krishna" (6 # 10) (1 # 10));
    [vm_compute; reflexivity | exact H1 | exact H2 | discriminate
    | discriminate].
Defined.

(** The score of two tokens that are not empty is positive: the length
    penalty alone is. *)
Lemma calculate_similarity_score_positive (w1 w2 : string) :
  w1 <> "" -> w2 <> "" -> (0 < score_of w1 w2)%Q.
Proof.
  intros N1 N2. unfold score_of, calculate_similarity_score.
  destruct (String.eqb (lower w1) (lower w2)); [reflexivity|].
  destruct (ratio_total (lower w1) (lower w2)) as (s & -> & Hs & _).
  destruct (ratio_total (normalize_phonetic w1) (normalize_phonetic w2))
    as (p & -> & Hp & _).
  cbn [bind]. unfold len.
  assert (L1 : (0 < Z.of_nat (String.length w1))%Z)
    by (destruct w1; [congruence | simpl; lia]).
  assert (L2 : (0 < Z.of_nat (String.length w2))%Z)
    by (destruct w2; [congruence | simpl; lia]).
  set (l1 := Z.of_nat (String.length w1)) in *.
  set (l2 := Z.of_nat (String.length w2)) in *.
  assert (Qmax : (0 < inject_Z (Z.max l1 l2))%Q) by (apply inject_Z_pos; lia).
  rewrite py_div_Ok by lra. cbn [bind].
  destruct (jaro_total (lower w1) (lower w2)) as (j & -> & Hj & _).
  cbn [bind].
  assert (L : (inject_Z (Z.abs (l1 - l2)) / inject_Z (Z.max l1 l2) < 1)%Q).
  { apply Qlt_shift_div_r; [exact Qmax|]. rewrite Qmult_1_l.
    rewrite <- Zlt_Qlt. lia. }
  lra.
Qed.

(** X21.  The score is 0 exactly when one of the two tokens is empty and
    the other is not. *)
Theorem calculate_similarity_score_zero (w1 w2 : string) :
  exists s,
    calculate_similarity_score w1 w2 = Ok s
    /\ (s == 0 <-> (w1 = "" /\ w2 <> "") \/ (w1 <> "" /\ w2 = ""))%Q.
Proof.
  exists (score_of w1 w2). split; [apply score_of_Ok|]. split.
  - intros H0.
    destruct (decide (w1 = "")) as [E1 | N1];
      destruct (decide (w2 = "")) as [E2 | N2]; auto.
    + subst. vm_compute in H0. discriminate.
    + pose proof (calculate_similarity_score_positive w1 w2 N1 N2). lra.
  - intros H.
    destruct (calculate_similarity_score_empty w1 w2) as (s & Hs & H0).
    + destruct H as [[-> H] | [H ->]]; congruence.
    + tauto.
    + rewrite score_of_Ok in Hs. injection Hs as <-. exact H0.
Qed.

(** X22.  With a threshold of 0 or less, a query that is not empty and
    hits no key is always corrected, to a word of the dictionary, as soon as
    the dictionary holds a word. *)
Theorem find_best_match_threshold_zero (c : NonEnglishSpellCorrector)
    (q x : string) (thr : Q) :
  dictionary_inv c ->
  word_variants c !! lower q = None ->
  q <> "" ->
  x ∈ reference_words c ->
  (thr <= 0)%Q ->
  exists r, find_best_match c q thr = Ok r /\ r ∈ reference_words c.
Proof.
  intros (Hw & _ & _) Hnone Hq Hx Hthr.
  destruct (Hw x Hx) as [Hne _].
  pose proof (calculate_similarity_score_positive q x Hq Hne) as Hpos.
  destruct (find_best_match_cases c q thr Hnone)
    as [[_ H] | (b & l1 & l2 & H & Hl & _)].
  - exfalso. apply (H x Hx). split; lra.
  - exists b. split; [exact H|]. rewrite Hl. apply elem_of_app. right. left.
Qed.

Lemma find_best_match_threshold_zero_witness :
  exists r,
    find_best_match (load_reference_dictionary demo_reference) "xyz" 0 = Ok r
    /\ r ∈ reference_words (load_reference_dictionary demo_reference).
Proof.
  apply (find_best_match_threshold_zero _ "xyz" "Ram").
  - apply load_reference_dictionary_inv.
  - vm_compute. reflexivity.
  - discriminate.
  - vm_compute. left.
  - vm_compute. discriminate.
Defined.
(** * The binary64 scores *)

(** X23.  Computed in binary64, as the program does,
    [calculate_similarity_score] raises nothing: every division is by a
    length or a count that is not 0, by 2 or by 3.  For two tokens that are
    equal but for case it returns the float 1.0. *)
Theorem calculate_similarity_score_binary64_returns (w1 w2 : string) :
  exists x,
    calculate_similarity_score_binary64 w1 w2 = Ok x
    /\ (lower w1 = lower w2 -> x = float_of_int 1).
Proof.
  destruct (calculate_similarity_score_binary64_total w1 w2) as (x & Hx).
  exists x. split; [exact Hx|]. intros E.
  unfold calculate_similarity_score_binary64 in Hx.
  rewrite (proj2 (String.eqb_eq _ _) E) in Hx. congruence.
Qed.

(** X24.  In binary64 too the score of two tokens is the same float in both
    orders whenever the two ratios and the Jaro similarity are: the length
    penalty is the same, and the same floats are multiplied and added in
    the same order. *)
Theorem calculate_similarity_score_binary64_symmetric (a b : string)
    (s p j : float) :
  ratio_binary64 (lower a) (lower b) = Ok s ->
  ratio_binary64 (lower b) (lower a) = Ok s ->
  ratio_binary64 (normalize_phonetic a) (normalize_phonetic b) = Ok p ->
  ratio_binary64 (normalize_phonetic b) (normalize_phonetic a) = Ok p ->
  _jaro_similarity_binary64 (lower a) (lower b) = Ok j ->
  _jaro_similarity_binary64 (lower b) (lower a) = Ok j ->
  calculate_similarity_score_binary64 a b
  = calculate_similarity_score_binary64 b a.
Proof.
  intros Hs Hs' Hp Hp' Hj Hj'.
  unfold calculate_similarity_score_binary64.
  destruct (String.eqb (lower a) (lower b)) eqn:E.
  - apply String.eqb_eq in E.
    rewrite (proj2 (String.eqb_eq (lower b) (lower a))) by congruence.
    reflexivity.
  - apply String.eqb_neq in E.
    rewrite (proj2 (String.eqb_neq (lower b) (lower a))) by congruence.
    rewrite Hs, Hs', Hp, Hp', Hj, Hj'.
    replace (Z.abs (len b - len a)) with (Z.abs (len a - len b)) by lia.
    rewrite (Z.max_comm (len b) (len a)). reflexivity.
Qed.

Lemma calculate_similarity_score_binary64_symmetric_witness :
  calculate_similarity_score_binary64 "Kriishna" "Krishna"
  = calculate_similarity_score_binary64 "Krishna" "Kriishna".
Proof.
  apply (calculate_similarity_score_binary64_symmetric "Kriishna" "Krishna"
           (SpecFloat.S754_finite false 8406719304424926 (-53))
           (SpecFloat.S754_finite false 4503599627370496 (-52))
           (SpecFloat.S754_finite false 8631899285793451 (-53)));
    vm_compute; reflexivity.
Defined.

(** X25.  With a dictionary as [load_reference_dictionary] builds it, the
    search on binary64 scores raises nothing, and what it returns is the
    query itself or a word of the dictionary. *)
Theorem find_best_match_binary64_total (c : NonEnglishSpellCorrector)
    (q : string) (thr : Q) :
  dictionary_inv c ->
  exists r,
    find_best_match_binary64 c q thr = Ok r
    /\ (r = q \/ r ∈ reference_words c).
Proof.
  exact (find_best_match_with_dictionary score_binary64 c q thr
           score_binary64_total).
Qed.

Lemma find_best_match_binary64_total_witness :
  exists r,
    find_best_match_binary64 (load_reference_dictionary demo_reference)
      "Kriishna" (6 # 10) = Ok r
    /\ (r = "Kriishna"
        \/ r ∈ reference_words (load_reference_dictionary demo_reference)).
Proof.
  apply find_best_match_binary64_total. apply load_reference_dictionary_inv.
Defined.
